(** * ReadingAge: readability metrics for a passage of text

    A shallow embedding of the [ReadingAge] object of the TinyMCE plugin
    (tokenizer, syllable estimator, [parseText], [deepParseText]) and the
    properties of it that the specification states.

    Conventions of the embedding.
    - A JavaScript string is a sequence of UTF-16 code units.  The model
      keeps the code units below 256 (Latin-1), one [ascii] each; on them
      [toLowerCase] keeps the length and the character classes of the
      regular expressions are the ones written out below.
    - A JavaScript number is an IEEE-754 binary64 value: [float], with the
      kernel's operations.  Counts ([length] of an array, a number of
      syllables) are kept as [nat] and become a [float] where the source
      divides them.
    - [throw] is a result in [completion]; [console.log] appends to an
      explicit console.

    [round], [toHTML] and the registration of the plugin with the editor
    render and display the result of [deepParseText]; they are not part of
    the embedding. *)

From Stdlib Require Import Ascii String List ZArith NArith Bool Arith Lia.
From Stdlib Require Import Floats Permutation Sorted.
Import ListNotations.

Set Implicit Arguments.

(* A decimal literal denotes the nearest binary64 value, as in the source. *)
Set Warnings "-inexact-float".

(** ** The language's built-in operations *)

Module JS.

Definition jsstring := list ascii.

(** A string literal of the source. *)
Definition lit (s : string) : jsstring := list_ascii_of_string s.

Definition code (c : ascii) : N := N_of_ascii c.

Definition jsstring_eqb (a b : jsstring) : bool :=
  if list_eq_dec ascii_dec a b then true else false.

(** Values, as far as [typeof] tells them apart. *)
Inductive value :=
| VUndefined
| VNull
| VBoolean (b : bool)
| VNumber (n : float)
| VString (s : jsstring).

(** What a [throw] carries: [new TypeError(msg)] or a bare string. *)
Inductive exn :=
| TypeError (msg : string)
| Thrown (msg : string).

Inductive completion (A : Type) :=
| Normal (a : A)
| Throw (e : exn).
Arguments Throw {A} e.

(** *** Character classes *)

(** [[A-Za-z]] *)
Definition is_letter (c : ascii) : bool :=
  let n := code c in
  ((65 <=? n) && (n <=? 90) || (97 <=? n) && (n <=? 122))%N.

(** [\s] on Latin-1: tab, line feed, vertical tab, form feed, carriage
    return, space and the no-break space. *)
Definition is_whitespace (c : ascii) : bool :=
  let n := code c in
  ((9 <=? n) && (n <=? 13) || (n =? 32) || (n =? 160))%N.

(** [[aeiouy]] *)
Definition is_vowel (c : ascii) : bool :=
  let n := code c in
  ((n =? 97) || (n =? 101) || (n =? 105) || (n =? 111) || (n =? 117)
   || (n =? 121))%N.

(** [[\.\?\!]] *)
Definition is_terminator (c : ascii) : bool :=
  let n := code c in
  ((n =? 46) || (n =? 63) || (n =? 33))%N.

Definition LF : ascii := ascii_of_N 10.
Definition SP : ascii := ascii_of_N 32.
Definition is_lf (c : ascii) : bool := (code c =? 10)%N.
Definition is_space (c : ascii) : bool := (code c =? 32)%N.
Definition is_rparen (c : ascii) : bool := (code c =? 41)%N.

(** *** String.prototype *)

(** [s.toLowerCase()]: A-Z and the Latin-1 capitals (all of 192..222 but
    the multiplication sign 215) move up by 32.  On these code units the
    lower-case form has the length of the string; beyond them one
    capital, U+0130, becomes two code units, so a property of the
    estimator that goes by the length of the lower-case form says so. *)
Definition lower (c : ascii) : ascii :=
  let n := code c in
  if ((65 <=? n) && (n <=? 90)
      || (192 <=? n) && (n <=? 222) && negb (n =? 215))%N
  then ascii_of_N (n + 32) else c.

Definition toLowerCase (s : jsstring) : jsstring := map lower s.

(** [s.search(/[class]/)]: the index of the first character of the class,
    or -1. *)
Fixpoint search_from (p : ascii -> bool) (s : jsstring) (i : Z) : Z :=
  match s with
  | [] => (-1)%Z
  | c :: t => if p c then i else search_from p t (i + 1)%Z
  end.

Definition search (p : ascii -> bool) (s : jsstring) : Z := search_from p s 0.

(** [s.replace("\n", " ")]: a string pattern replaces its first occurrence
    only. *)
Fixpoint replace_first (p : ascii -> bool) (r : ascii) (s : jsstring)
  : jsstring :=
  match s with
  | [] => []
  | c :: t => if p c then r :: t else c :: replace_first p r t
  end.

(** [s.replace(/^[class]+/g, "")] *)
Fixpoint replace_leading (p : ascii -> bool) (s : jsstring) : jsstring :=
  match s with
  | [] => []
  | c :: t => if p c then replace_leading p t else s
  end.

(** [s.replace(/[class]+$/g, "")]: the only match is the run that reaches
    the end of the string. *)
Fixpoint replace_trailing (p : ascii -> bool) (s : jsstring) : jsstring :=
  match s with
  | [] => []
  | c :: t =>
      match replace_trailing p t with
      | [] => if p c then [] else [c]
      | t' => c :: t'
      end
  end.

(** [s.replace(/[class]+/g, r)]: every maximal run becomes one [r].
    [inrun] tells that the previous character was of the class. *)
Fixpoint replace_runs_from (p : ascii -> bool) (r : ascii) (inrun : bool)
  (s : jsstring) : jsstring :=
  match s with
  | [] => []
  | c :: t =>
      if p c
      then (if inrun then replace_runs_from p r true t
            else r :: replace_runs_from p r true t)
      else c :: replace_runs_from p r false t
  end.

Definition replace_runs (p : ascii -> bool) (r : ascii) (s : jsstring)
  : jsstring := replace_runs_from p r false s.

(** [s.split(" ")] *)
Fixpoint split (sep : ascii -> bool) (s : jsstring) : list jsstring :=
  match s with
  | [] => [[]]
  | c :: t =>
      if sep c then [] :: split sep t
      else match split sep t with
           | [] => [[c]]
           | w :: ws => (c :: w) :: ws
           end
  end.

(** [s.match(/[class]/g)]: [null], or the array of the one-character
    matches. *)
Definition match_class (p : ascii -> bool) (s : jsstring)
  : option (list jsstring) :=
  match filter p s with
  | [] => None
  | l => Some (map (fun c => [c]) l)
  end.

Fixpoint prefixb (needle s : jsstring) : bool :=
  match needle, s with
  | [], _ => true
  | _ :: _, [] => false
  | a :: n', b :: s' => Ascii.eqb a b && prefixb n' s'
  end.

(** [s.lastIndexOf(needle)]: the greatest index where [needle] occurs,
    or -1. *)
Fixpoint lastIndexOf_from (needle s : jsstring) (i best : Z) : Z :=
  match s with
  | [] => if prefixb needle [] then i else best
  | _ :: t =>
      lastIndexOf_from needle t (i + 1)%Z (if prefixb needle s then i else best)
  end.

Definition lastIndexOf (needle s : jsstring) : Z :=
  lastIndexOf_from needle s 0 (-1).

(** [s.replace(/(es|ed|e)$/, "")]: the leftmost position from which the
    rest of the string is one of the alternatives; the match is removed. *)
Fixpoint replace_final (alts : list jsstring) (s : jsstring) : jsstring :=
  match s with
  | [] => []
  | c :: t => if existsb (jsstring_eqb s) alts then [] else c :: replace_final alts t
  end.

(** [text.match(/\(?[^\.\?\!]+[\.!\?]\)?/g)].  An opening parenthesis is
    itself a character of [[^\.\?\!]], so a match is a maximal non-empty
    run of non-terminators, the terminator after it and a closing
    parenthesis if one follows; a run that reaches the end of the text is
    no match.  [cur] is the run read so far, last character first. *)
Fixpoint scan_sentences (cur : jsstring) (s : jsstring) : list jsstring :=
  match s with
  | [] => []
  | c :: t =>
      if is_terminator c then
        match cur with
        | [] => scan_sentences [] t
        | _ =>
            match t with
            | d :: t' =>
                if is_rparen d
                then (rev cur ++ [c; d]) :: scan_sentences [] t'
                else (rev cur ++ [c]) :: scan_sentences [] t
            | [] => [rev cur ++ [c]]
            end
        end
      else scan_sentences (c :: cur) t
  end.

Definition match_sentences (s : jsstring) : option (list jsstring) :=
  match scan_sentences [] s with
  | [] => None
  | l => Some l
  end.

(** [text.match(/\(?[^\.\?\!]+$/g)]: the non-empty run of non-terminators
    that ends the text, if there is one. *)
Fixpoint scan_final (cur : jsstring) (s : jsstring) : option jsstring :=
  match s with
  | [] => match cur with [] => None | _ => Some (rev cur) end
  | c :: t => if is_terminator c then scan_final [] t else scan_final (c :: cur) t
  end.

Definition match_final (s : jsstring) : option (list jsstring) :=
  match scan_final [] s with
  | None => None
  | Some m => Some [m]
  end.

(** *** Arrays of strings *)

Definition is_digit (c : ascii) : bool :=
  let n := code c in ((48 <=? n) && (n <=? 57))%N.

Fixpoint decimal_value (acc : N) (s : jsstring) : N :=
  match s with
  | [] => acc
  | c :: t => decimal_value (acc * 10 + (code c - 48))%N t
  end.

(** The array index a property key denotes: the key has to be the
    canonical decimal numeral of the index. *)
Definition array_index (key : jsstring) : option N :=
  match key with
  | [] => None
  | c :: t =>
      if forallb is_digit key && negb ((code c =? 48)%N && negb (length t =? 0))
      then Some (decimal_value 0 key) else None
  end.

(** [ary[key]] when [typeof ary[key] === "string"], for an array of
    strings and a key that is a string: an own element.  Every other
    property of such an array ([length], the inherited methods) holds a
    number, a function or an object, and a missing one is [undefined]. *)
Definition array_string_at (ary : list jsstring) (key : jsstring)
  : option (nat * jsstring) :=
  match array_index key with
  | Some n =>
      if (n <? N.of_nat (length ary))%N
      then match nth_error ary (N.to_nat n) with
           | Some s => Some (N.to_nat n, s)
           | None => None
           end
      else None
  | None => None
  end.

(** [ary[k] = v] for an index in range. *)
Fixpoint array_set (ary : list jsstring) (k : nat) (v : jsstring)
  : list jsstring :=
  match ary, k with
  | [], _ => []
  | _ :: t, O => v :: t
  | a :: t, S k' => a :: array_set t k' v
  end.

(** [ary.splice(k, 1)] *)
Fixpoint splice1 (ary : list jsstring) (k : nat) : list jsstring :=
  match ary, k with
  | [], _ => []
  | _ :: t, O => t
  | a :: t, S k' => a :: splice1 t k'
  end.

(** *** Numbers *)

(** A count as a number.  The conversion is exact below 2^53, and an
    array has fewer than 2^32 entries. *)
Definition number_of_nat (n : nat) : float :=
  PrimFloat.of_uint63 (Uint63.of_Z (Z.of_nat n)).

(** *** Array.prototype.sort with a comparison function

    The language asks for a stable sort and fixes the result where
    [comparefn] is a consistent comparator; a NaN that [comparefn] returns
    counts as +0.  The model is the stable insertion sort: an element moves
    behind the elements that [comparefn] puts before it ([comparefn x y > 0])
    and stays in front of all others.  Where [comparefn] is no consistent
    comparator, as with a NaN for some pairs and a sign for others, the
    language leaves the order to the implementation, and the model gives
    one such order: the properties below take it there for a permutation
    and no more, but for an input on which no element moves. *)
Fixpoint sort_insert {A} (comparefn : A -> A -> float) (x : A)
  (sorted : list A) : list A :=
  match sorted with
  | [] => [x]
  | y :: rest =>
      if (0 <? comparefn x y)%float
      then y :: sort_insert comparefn x rest
      else x :: sorted
  end.

Fixpoint sort {A} (comparefn : A -> A -> float) (ary : list A) : list A :=
  match ary with
  | [] => []
  | x :: rest => sort_insert comparefn x (sort comparefn rest)
  end.

End JS.

(** ** The console and the monad of the functions that log *)

Module Console.
Import JS.

(** What the source passes to [console.log]. *)
Inductive logged :=
| LogString (s : string)
| LogExn (e : exn)
| LogWord (value : jsstring) (aryOfWords : list jsstring)
| LogSentence (e : exn) (value : jsstring) (i : nat).

Definition console := list logged.

(** A computation that may log and may throw. *)
Definition M (A : Type) : Type := console -> completion A * console.

Definition ret {A} (a : A) : M A := fun c => (Normal a, c).

Definition bind {A B} (m : M A) (k : A -> M B) : M B :=
  fun c =>
    match m c with
    | (Normal a, c') => k a c'
    | (Throw e, c') => (Throw e, c')
    end.

Definition throw {A} (e : exn) : M A := fun c => (Throw e, c).

Definition log (x : logged) : M unit := fun c => (Normal tt, c ++ [x]).

(** A function that throws but does not log. *)
Definition lift {A} (r : completion A) : M A := fun c => (r, c).

(** [try { m } catch (e) { handler(e) }] *)
Definition try_catch {A} (m : M A) (handler : exn -> M A) : M A :=
  fun c =>
    match m c with
    | (Normal a, c') => (Normal a, c')
    | (Throw e, c') => handler e c'
    end.

Declare Scope js_scope.
Delimit Scope js_scope with js.
Notation "x <- m ;; k" := (bind m (fun x => k))
  (at level 61, m at next level, right associativity) : js_scope.
Notation "m ;;; k" := (bind m (fun _ => k))
  (at level 61, right associativity) : js_scope.

End Console.

(** ** The [ReadingAge] object *)

Module ReadingAge.
Import JS Console.
Local Open Scope string_scope.
Local Open Scope list_scope.
Local Open Scope nat_scope.
Local Open Scope js_scope.

(** The result of [parseText]. *)
Record parsed := {
  source : value;
  sentences : list jsstring;
  numSentences : nat;
  words : list jsstring;
  numWords : nat;
  syllables : list nat;
  numSyllables : nat;
  complexWordPositions : list nat;
  numComplexWords : nat;
  complexWords : list value;
  averageWordsPerSentence : float;
  averageSyllablesPerWord : float;
  complexWordRatio : float;
  complexWordsPerSentence : float;
  fleschKincaidReadingEase : float;
  fleschKincaidGradeLevel : float;
  gunningFogIndex : float;
  smogIndex : float
}.

(** The result of [deepParseText]: the fields of [parseText]'s result and
    [parsedSentences]. *)
Record deep := {
  result : parsed;
  parsedSentences : list parsed
}.

Definition sortFleschKincaidGradeLevelDescending (a b : parsed) : float :=
  (fleschKincaidGradeLevel b - fleschKincaidGradeLevel a)%float.

Definition sortSmogIndexDescending (a b : parsed) : float :=
  (smogIndex b - smogIndex a)%float.

Definition getNumSyllablesInWord (word : value) : completion nat :=
  match word with
  | VString word =>
      if length word =? 0 then Throw (Thrown "Empty string.")
      else if negb (search is_whitespace word =? -1)%Z
      then Throw (Thrown "Contains whitespace.")
      else if length word <=? 3 then Normal 1
      else
        let word := toLowerCase word in
        let word :=
          if negb (lastIndexOf (lit "le") word =? Z.of_nat (length word) - 2)%Z
          then replace_final [lit "es"; lit "ed"; lit "e"] word
          else word in
        let word := replace_runs is_vowel "a"%char word in
        match match_class is_vowel word with
        | None => Normal 0
        | Some matches => Normal (length matches)
        end
  | _ => Throw (TypeError "A string is required.")
  end.

Definition non_letter (c : ascii) : bool := negb (is_letter c).

Definition trimNonLetters (str : jsstring) : jsstring :=
  let str := replace_first is_lf SP str in
  let str := replace_leading non_letter str in
  let str := replace_trailing non_letter str in
  str.

(** [ary.forEach(function (i) { ... })]: the callback's parameter [i] is
    the element, and [ary[i]] reads the property of the array that the
    element names.  [k] is the index [forEach] has reached and [todo] the
    number of indices left. *)
Fixpoint trimNonLettersFromArray_each (todo k : nat) (ary : list jsstring)
  : list jsstring :=
  match todo with
  | O => ary
  | S todo' =>
      match nth_error ary k with
      | None => ary
      | Some i =>
          let ary :=
            match array_string_at ary i with
            | Some (n, s) => array_set ary n (trimNonLetters s)
            | None => ary
            end in
          trimNonLettersFromArray_each todo' (S k) ary
      end
  end.

Definition trimNonLettersFromArray (ary : list jsstring) : list jsstring :=
  trimNonLettersFromArray_each (length ary) 0 ary.

Fixpoint findFirstEmptyWord_from (ary : list jsstring) (i : Z) : Z :=
  match ary with
  | [] => (-1)%Z
  | w :: rest =>
      if (search is_letter w =? -1)%Z then i
      else findFirstEmptyWord_from rest (i + 1)%Z
  end.

Definition findFirstEmptyWord (ary : list jsstring) : Z :=
  findFirstEmptyWord_from ary 0.

(** The [do ... while] loop, at most [fuel] rounds. *)
Fixpoint removeEmptyWords_loop (fuel : nat) (ary : list jsstring)
  : list jsstring :=
  match fuel with
  | O => ary
  | S fuel' =>
      let position := findFirstEmptyWord ary in
      if negb (position =? -1)%Z
      then removeEmptyWords_loop fuel' (splice1 ary (Z.to_nat position))
      else ary
  end.

Definition removeEmptyWords (ary : list jsstring) : list jsstring :=
  removeEmptyWords_loop (S (length ary)) ary.

Definition getWords (text : value) : completion (list jsstring) :=
  match text with
  | VString text =>
      if length text =? 0 then Normal []
      else
        let text := replace_runs is_lf SP text in
        (* text.replace(/\s+/g, " ") is evaluated and its result dropped *)
        let words := split is_space text in
        let words := trimNonLettersFromArray words in
        let words := removeEmptyWords words in
        Normal words
  | _ => Throw (TypeError "A string is required.")
  end.

Definition getSentences (text : value) : completion (list jsstring) :=
  match text with
  | VString text =>
      if length text =? 0 then Normal []
      else
        let text := replace_runs is_lf SP text in
        let matches := match_sentences text in
        let finalMatch := match_final text in
        let matches := match matches with None => [] | Some l => l end in
        let matches :=
          match finalMatch with
          | Some (m0 :: _) => matches ++ [m0]
          | _ => matches
          end in
        Normal matches
  | _ => Throw (TypeError "A string is required.")
  end.

Fixpoint getNumSyllablesPerWord_each (aryOfWords todo : list jsstring)
  (result : list nat) : M (list nat) :=
  match todo with
  | [] => ret result
  | value :: rest =>
      result <-
        try_catch
          (n <- lift (getNumSyllablesInWord (VString value)) ;;
           ret (result ++ [n]))
          (fun e =>
             log (LogString "Error in ReadingAge.getNumSyllablesPerWord") ;;;
             log (LogExn e) ;;;
             log (LogWord value aryOfWords) ;;;
             ret result) ;;
      getNumSyllablesPerWord_each aryOfWords rest result
  end.

Definition getNumSyllablesPerWord (aryOfWords : list jsstring) : M (list nat) :=
  getNumSyllablesPerWord_each aryOfWords aryOfWords [].

Fixpoint getComplexWordPositions_each (todo : list nat) (i : nat)
  (result : list nat) : list nat :=
  match todo with
  | [] => result
  | value :: rest =>
      getComplexWordPositions_each rest (S i)
        (if 3 <=? value then result ++ [i] else result)
  end.

Definition getComplexWordPositions (aryOfNumSyllables : list nat) : list nat :=
  getComplexWordPositions_each aryOfNumSyllables 0 [].

(** [aryOfWords[value]] is [undefined] past the end of the array. *)
Definition getComplexWords (aryOfWords : list jsstring)
  (aryOfComplexWordPositions : list nat) : list value :=
  fold_left
    (fun result value =>
       result ++ [match nth_error aryOfWords value with
                  | Some w => VString w
                  | None => VUndefined
                  end])
    aryOfComplexWordPositions [].

(** Every entry of the array is a number here, so the test
    [typeof num === "number"] holds for each of them. *)
Definition arrayAdd (ary : list nat) : nat :=
  fold_left (fun result num => result + num) ary 0.

Definition parseText (text : value) : M parsed :=
  sentences <- lift (getSentences text) ;;
  let numSentences := length sentences in
  words <- lift (getWords text) ;;
  let numWords := length words in
  syllables <- getNumSyllablesPerWord words ;;
  let numSyllables := arrayAdd syllables in
  let complexWordPositions := getComplexWordPositions syllables in
  let numComplexWords := length complexWordPositions in
  let complexWords := getComplexWords words complexWordPositions in
  let averageWordsPerSentence :=
    (number_of_nat numWords / number_of_nat numSentences)%float in
  let averageSyllablesPerWord :=
    (number_of_nat numSyllables / number_of_nat numWords)%float in
  let complexWordRatio :=
    (number_of_nat numComplexWords / number_of_nat numWords)%float in
  let complexWordsPerSentence :=
    (number_of_nat numComplexWords / number_of_nat numSentences)%float in
  ret {|
    source := text;
    sentences := sentences;
    numSentences := numSentences;
    words := words;
    numWords := numWords;
    syllables := syllables;
    numSyllables := numSyllables;
    complexWordPositions := complexWordPositions;
    numComplexWords := numComplexWords;
    complexWords := complexWords;
    averageWordsPerSentence := averageWordsPerSentence;
    averageSyllablesPerWord := averageSyllablesPerWord;
    complexWordRatio := complexWordRatio;
    complexWordsPerSentence := complexWordsPerSentence;
    fleschKincaidReadingEase :=
      (206.835 - 1.015 * averageWordsPerSentence
       - 84.6 * averageSyllablesPerWord)%float;
    fleschKincaidGradeLevel :=
      (0.39 * averageWordsPerSentence + 11.8 * averageSyllablesPerWord
       - 15.59)%float;
    gunningFogIndex :=
      (0.4 * (averageWordsPerSentence + 100 * complexWordRatio))%float;
    smogIndex :=
      (1.0430 * PrimFloat.sqrt (30 * complexWordsPerSentence) + 3.1291)%float
  |}.

(** The callback of [result.sentences.forEach] in [deepParseText]: [i] is
    the index of the sentence [value]. *)
Fixpoint deepParseText_each (todo : list jsstring) (i : nat)
  (parsedSentences : list parsed) : M (list parsed) :=
  match todo with
  | [] => ret parsedSentences
  | value :: rest =>
      parsedSentences <-
        try_catch
          (r <- parseText (VString value) ;;
           ret (parsedSentences ++ [r]))
          (fun e =>
             log (LogString "Error in ReadingAge.deepParseText loop") ;;;
             log (LogSentence e value i) ;;;
             throw e) ;;
      deepParseText_each rest (S i) parsedSentences
  end.

Definition deepParseText (text : value) : M deep :=
  result <- parseText text ;;
  parsedSentences <- deepParseText_each (sentences result) 0 [] ;;
  ret {|
    result := result;
    parsedSentences := sort sortFleschKincaidGradeLevelDescending parsedSentences
  |}.

End ReadingAge.

(** * Vocabulary of the properties *)

Import JS Console ReadingAge.
Local Open Scope list_scope.
Local Open Scope nat_scope.
Unset Implicit Arguments.

(** The string is empty or starts with a letter. *)
Definition starts_with_letter (s : jsstring) : Prop :=
  match s with
  | [] => True
  | c :: _ => is_letter c = true
  end.

(** Nothing is left to remove at the end of the string. *)
Definition ends_with_letter (s : jsstring) : Prop :=
  replace_trailing non_letter s = s.

(** [s] ends with [suffix]: some tail of [s] is [suffix]. *)
Fixpoint ends_with (suffix s : jsstring) : bool :=
  jsstring_eqb s suffix
  || match s with
     | [] => false
     | _ :: t => ends_with suffix t
     end.

(** [s] without its last [n] characters. *)
Definition drop_last (n : nat) (s : jsstring) : jsstring :=
  firstn (length s - n) s.

(** The rule of the estimator in the words of its description: a final
    -es, -ed or -e is ignored, the first of them that the word ends with
    and no more than that one. *)
Definition without_final_suffix (s : jsstring) : jsstring :=
  if ends_with (lit "es") s then drop_last 2 s
  else if ends_with (lit "ed") s then drop_last 2 s
  else if ends_with (lit "e") s then drop_last 1 s
  else s.

(** ... except for -le. *)
Definition counted_part (s : jsstring) : jsstring :=
  if ends_with (lit "le") s then s else without_final_suffix s.

(** The number of maximal runs of consecutive vowels; [prev] tells that
    the previous character was a vowel. *)
Fixpoint vowel_runs_from (prev : bool) (s : jsstring) : nat :=
  match s with
  | [] => 0
  | c :: t =>
      if is_vowel c
      then (if prev then 0 else 1) + vowel_runs_from true t
      else vowel_runs_from false t
  end.

Definition vowel_runs (s : jsstring) : nat := vowel_runs_from false s.

(** The token has an ASCII letter: [findFirstEmptyWord] passes it by. *)
Definition has_letter (w : jsstring) : bool := existsb is_letter w.

(** The token holds no white space. *)
Definition no_whitespace (w : jsstring) : bool := negb (existsb is_whitespace w).

(** The estimate for a word that passes the guards. *)
Definition syllable_count (w : jsstring) : nat :=
  if length w <=? 3 then 1 else vowel_runs (counted_part (toLowerCase w)).

(** The estimates of the words whose estimation succeeds, in the order of
    the words. *)
Definition syllables_of_words (ws : list jsstring) : list nat :=
  flat_map
    (fun w =>
       match getNumSyllablesInWord (VString w) with
       | Normal n => [n]
       | Throw _ => []
       end)
    ws.

(** What [parseText] computes its result from. *)
Definition parsed_from (text : jsstring) (r : parsed) : Prop :=
  source r = VString text
  /\ getSentences (VString text) = Normal (sentences r)
  /\ numSentences r = length (sentences r)
  /\ getWords (VString text) = Normal (words r)
  /\ numWords r = length (words r)
  /\ syllables r = syllables_of_words (words r)
  /\ numSyllables r = arrayAdd (syllables r)
  /\ complexWordPositions r = getComplexWordPositions (syllables r)
  /\ numComplexWords r = length (complexWordPositions r)
  /\ complexWords r = getComplexWords (words r) (complexWordPositions r)
  /\ averageWordsPerSentence r
     = (number_of_nat (numWords r) / number_of_nat (numSentences r))%float
  /\ averageSyllablesPerWord r
     = (number_of_nat (numSyllables r) / number_of_nat (numWords r))%float
  /\ complexWordRatio r
     = (number_of_nat (numComplexWords r) / number_of_nat (numWords r))%float
  /\ complexWordsPerSentence r
     = (number_of_nat (numComplexWords r) / number_of_nat (numSentences r))%float
  /\ fleschKincaidReadingEase r
     = (206.835 - 1.015 * averageWordsPerSentence r
        - 84.6 * averageSyllablesPerWord r)%float
  /\ fleschKincaidGradeLevel r
     = (0.39 * averageWordsPerSentence r + 11.8 * averageSyllablesPerWord r
        - 15.59)%float
  /\ gunningFogIndex r
     = (0.4 * (averageWordsPerSentence r + 100 * complexWordRatio r))%float
  /\ smogIndex r
     = (1.0430 * PrimFloat.sqrt (30 * complexWordsPerSentence r)
        + 3.1291)%float.

(** NaN or an infinity. *)
Definition nan_or_infinity (x : float) : bool :=
  PrimFloat.is_nan x || PrimFloat.is_infinity x.

(** Inputs of the examples. *)

(** ["a\n\nb"]: two letters with two line feeds between them. *)
Definition two_lines : jsstring := ["a"; "010"; "010"; "b"]%char.

(** ["a\tb"]: one token with a tab inside. *)
Definition tabbed : jsstring := ["a"; "009"; "b"]%char.

(** A passage of three sentences, the second without a word. *)
Definition numbered : jsstring := lit "a. 1. b c d.".

(** The grade levels do not increase along the sequence. *)
Fixpoint non_increasing (grades : list float) : bool :=
  match grades with
  | a :: ((b :: _) as rest) => (b <=? a)%float && non_increasing rest
  | _ => true
  end.

Definition grade_levels (l : list parsed) : list float :=
  map fleschKincaidGradeLevel l.

(** ** Vocabulary of the further properties *)

(** The outcome of the estimator for every value, read off its guards. *)
Definition estimate (word : value) : completion nat :=
  match word with
  | VString w =>
      match w with
      | [] => Throw (Thrown "Empty string.")
      | _ :: _ =>
          if existsb is_whitespace w then Throw (Thrown "Contains whitespace.")
          else Normal (syllable_count w)
      end
  | _ => Throw (TypeError "A string is required.")
  end.


(** The fragment that the second expression matches. *)
Definition unterminated_fragment (s : jsstring) : Prop :=
  s <> [] /\ existsb is_terminator s = false.

(** The number of characters of a class in a string. *)
Definition count_class (p : ascii -> bool) (s : jsstring) : nat :=
  length (filter p s).

(** What [getNumSyllablesPerWord] writes to the console for the words
    [todo] of the array [aryOfWords]. *)
Definition logged_words (aryOfWords todo : list jsstring) : console :=
  flat_map
    (fun w =>
       match getNumSyllablesInWord (VString w) with
       | Normal _ => []
       | Throw e =>
           [LogString "Error in ReadingAge.getNumSyllablesPerWord";
            LogExn e; LogWord w aryOfWords]
       end)
    todo.

(** The entry comes from [getNumSyllablesPerWord]. *)
Definition word_entry (x : logged) : Prop :=
  match x with
  | LogString s => s = "Error in ReadingAge.getNumSyllablesPerWord"%string
  | LogExn _ | LogWord _ _ => True
  | LogSentence _ _ _ => False
  end.

(** [parseText] returns [r] for the string [s]. *)
Definition parses_to (s : jsstring) (r : parsed) : Prop :=
  exists c c', parseText (VString s) c = (Normal r, c').

(** The results whose index [key] equals [g], in their order. *)
Definition with_index (key : parsed -> float) (g : float) (l : list parsed)
  : list parsed :=
  filter (fun r => (key r =? g)%float) l.

(** No result has NaN for its index [key]. *)
Definition are_numbers (key : parsed -> float) (l : list parsed) : bool :=
  forallb (fun r => negb (PrimFloat.is_nan (key r))) l.

(** What [deepParseText] gives for the sentences of a passage. *)
Definition sentence_results (text : jsstring) : list parsed :=
  match fst (deepParseText (VString text) []) with
  | Normal d => parsedSentences d
  | Throw _ => []
  end.

(** Three results, the one with the largest SMOG index last. *)
Definition three_results : list parsed :=
  rev (sentence_results
         (lit "a. b c d. Extraordinarily complicated sentences.")).

(** The indices, counted from [i], of the entries that are 3 or more. *)
Fixpoint positions_from (i : nat) (l : list nat) : list nat :=
  match l with
  | [] => []
  | v :: rest =>
      if 3 <=? v then i :: positions_from (S i) rest
      else positions_from (S i) rest
  end.

(** * Properties *)

(** ** Searching for a character class *)

Lemma search_from_absent p s i :
  existsb p s = false -> search_from p s i = (-1)%Z.
Proof.
  revert i; induction s as [|c t IH]; intros i H; simpl in *.
  - reflexivity.
  - apply orb_false_iff in H as [Hc Ht]. rewrite Hc. now apply IH.
Qed.

Lemma search_from_present p s i :
  (0 <= i)%Z -> existsb p s = true -> (i <= search_from p s i)%Z.
Proof.
  revert i; induction s as [|c t IH]; intros i Hi H; simpl in *.
  - discriminate.
  - destruct (p c); [lia|]. simpl in H. specialize (IH (i + 1)%Z ltac:(lia) H). lia.
Qed.

Lemma search_absent_iff p s :
  (search p s =? -1)%Z = negb (existsb p s).
Proof.
  unfold search. destruct (existsb p s) eqn:E; simpl.
  - apply Z.eqb_neq. pose proof (search_from_present p s 0 (Z.le_refl 0) E). lia.
  - rewrite search_from_absent by assumption. reflexivity.
Qed.

(** ** [trimNonLetters] *)

Lemma replace_first_absent p r s :
  existsb p s = false -> replace_first p r s = s.
Proof.
  induction s as [|c t IH]; simpl; intros H; [reflexivity|].
  apply orb_false_iff in H as [Hc Ht]. rewrite Hc, IH; auto.
Qed.

Lemma replace_first_present p r s :
  (forall c, p c = true -> c <> r) ->
  existsb p s = true -> replace_first p r s <> s.
Proof.
  intros Hr. induction s as [|c t IH]; simpl; intros H; [discriminate|].
  destruct (p c) eqn:Hc.
  - intros [= E]. now apply (Hr c).
  - simpl in H. intros [= E]. now apply IH.
Qed.

Lemma replace_leading_starts s : starts_with_letter (replace_leading non_letter s).
Proof.
  induction s as [|c t IH]; simpl; [exact I|].
  unfold non_letter at 1. destruct (is_letter c) eqn:Hc; simpl; auto.
Qed.

Lemma replace_leading_fixed s :
  starts_with_letter s -> replace_leading non_letter s = s.
Proof.
  destruct s as [|c t]; simpl; [reflexivity|].
  unfold non_letter. now intros ->.
Qed.

Lemma replace_trailing_cons p c t :
  replace_trailing p (c :: t) =
  match replace_trailing p t with
  | [] => if p c then [] else [c]
  | t' => c :: t'
  end.
Proof. reflexivity. Qed.

Lemma replace_trailing_idempotent p s :
  replace_trailing p (replace_trailing p s) = replace_trailing p s.
Proof.
  induction s as [|c t IH]; [reflexivity|].
  rewrite replace_trailing_cons.
  destruct (replace_trailing p t) as [|d t'] eqn:E.
  - destruct (p c) eqn:Hc; [reflexivity|]. simpl. now rewrite Hc.
  - rewrite replace_trailing_cons, IH. reflexivity.
Qed.

Lemma replace_trailing_starts s :
  starts_with_letter s -> starts_with_letter (replace_trailing non_letter s).
Proof.
  destruct s as [|c t]; simpl; [auto|]. intros Hc.
  destruct (replace_trailing non_letter t); simpl; auto.
  unfold non_letter. now rewrite Hc.
Qed.

Lemma ends_with_letter_cons c t :
  ends_with_letter (c :: t) <->
  (t = [] /\ is_letter c = true) \/ (t <> [] /\ ends_with_letter t).
Proof.
  unfold ends_with_letter. rewrite replace_trailing_cons.
  destruct (replace_trailing non_letter t) as [|d t'] eqn:E.
  - unfold non_letter. destruct (is_letter c) eqn:Hc; simpl; split.
    + intros [= <-]. now left.
    + intros [[-> _] | [Hne Ht]]; [reflexivity | congruence].
    + discriminate.
    + intros [[_ ?] | [Hne Ht]]; congruence.
  - split.
    + intros [= <-]. right. split; [discriminate | reflexivity].
    + intros [[-> _] | [_ ->]]; [discriminate | reflexivity].
Qed.

Lemma replace_first_nil p r s : replace_first p r s = [] -> s = [].
Proof. destruct s as [|c t]; simpl; [auto|]. destruct (p c); discriminate. Qed.

Lemma replace_first_ends s :
  ends_with_letter s -> ends_with_letter (replace_first is_lf SP s).
Proof.
  induction s as [|c t IH]; [auto|]. intros H.
  apply ends_with_letter_cons in H. simpl.
  destruct (is_lf c) eqn:Hc.
  - apply ends_with_letter_cons. destruct H as [[-> Hl] | [Hne Ht]].
    + exfalso. revert Hc Hl. unfold is_lf, is_letter.
      destruct (N.eqb_spec (code c) 10) as [->|]; [|discriminate].
      discriminate.
    + right. auto.
  - apply ends_with_letter_cons. destruct H as [[-> Hl] | [Hne Ht]].
    + left. auto.
    + right. split; [|auto]. intros E. now apply replace_first_nil in E.
Qed.

Lemma replace_first_starts s :
  starts_with_letter s -> starts_with_letter (replace_first is_lf SP s).
Proof.
  destruct s as [|c t]; simpl; [auto|]. intros Hl.
  destruct (is_lf c) eqn:Hc; simpl; [|assumption].
  exfalso. revert Hc Hl. unfold is_lf, is_letter.
  destruct (N.eqb_spec (code c) 10) as [->|]; discriminate.
Qed.

Lemma trimNonLetters_starts s : starts_with_letter (trimNonLetters s).
Proof.
  unfold trimNonLetters. apply replace_trailing_starts, replace_leading_starts.
Qed.

Lemma trimNonLetters_ends s : ends_with_letter (trimNonLetters s).
Proof.
  unfold trimNonLetters, ends_with_letter. apply replace_trailing_idempotent.
Qed.

(** On a string that is already trimmed, [trimNonLetters] only replaces
    the first line feed. *)
Lemma trimNonLetters_trimmed s :
  starts_with_letter s -> ends_with_letter s ->
  trimNonLetters s = replace_first is_lf SP s.
Proof.
  intros Hs He. unfold trimNonLetters.
  rewrite replace_leading_fixed by now apply replace_first_starts.
  now apply replace_first_ends.
Qed.

Lemma trimNonLetters_twice s :
  trimNonLetters (trimNonLetters s) = replace_first is_lf SP (trimNonLetters s).
Proof.
  apply trimNonLetters_trimmed;
    [apply trimNonLetters_starts | apply trimNonLetters_ends].
Qed.

Lemma is_lf_not_SP c : is_lf c = true -> c <> SP.
Proof. intros H ->. discriminate H. Qed.

(** The second application does no more than replace the first line feed
    that is left: [trimNonLetters] is idempotent exactly on the strings
    whose trimmed form holds no line feed. *)
Lemma trimNonLetters_idempotent_iff s :
  trimNonLetters (trimNonLetters s) = trimNonLetters s
  <-> existsb is_lf (trimNonLetters s) = false.
Proof.
  rewrite trimNonLetters_twice. split.
  - intros H. destruct (existsb is_lf (trimNonLetters s)) eqn:E; [|reflexivity].
    exfalso. revert H. apply replace_first_present; [apply is_lf_not_SP | exact E].
  - apply replace_first_absent.
Qed.

Lemma existsb_replace_leading q p s :
  existsb q (replace_leading p s) = true -> existsb q s = true.
Proof.
  induction s as [|c t IH]; simpl; [auto|].
  destruct (p c); simpl; [|auto]. intros H. rewrite IH by assumption.
  apply orb_true_r.
Qed.

Lemma existsb_replace_trailing q p s :
  existsb q (replace_trailing p s) = true -> existsb q s = true.
Proof.
  induction s as [|c t IH]; [auto|]. rewrite replace_trailing_cons.
  destruct (replace_trailing p t) as [|d t'].
  - destruct (p c); simpl; [discriminate|]. rewrite orb_false_r. now intros ->.
  - cbn [existsb] in *. intros H. apply orb_true_iff in H as [H | H].
    + now rewrite H.
    + rewrite IH by assumption. apply orb_true_r.
Qed.

(** A string with no line feed left after the first replacement, such as
    every string with at most one line feed, is trimmed once and for all. *)
Lemma trimNonLetters_idempotent_no_lf s :
  existsb is_lf (replace_first is_lf SP s) = false ->
  trimNonLetters (trimNonLetters s) = trimNonLetters s.
Proof.
  intros H. apply trimNonLetters_idempotent_iff.
  destruct (existsb is_lf (trimNonLetters s)) eqn:E; [|reflexivity].
  unfold trimNonLetters in E.
  apply existsb_replace_trailing, existsb_replace_leading in E. congruence.
Qed.

(** C4: on "a\n\nb" the first application of [trimNonLetters] replaces
    the first line feed and leaves the second, "a \nb", and the second
    application replaces that one too, "a  b": the two results differ.
    [str.replace("\n", " ")] has a string for its pattern and replaces one
    occurrence, where [getWords] and [getSentences] replace every run of
    line feeds. *)
Theorem trimNonLetters_twice_two_lines :
  trimNonLetters two_lines = ["a"; " "; "010"; "b"]%char
  /\ trimNonLetters (trimNonLetters two_lines) = ["a"; " "; " "; "b"]%char
  /\ trimNonLetters (trimNonLetters two_lines) <> trimNonLetters two_lines.
Proof. repeat split. discriminate. Qed.

(** ** [getNumSyllablesInWord] *)

Lemma jsstring_eqb_eq a b : jsstring_eqb a b = true <-> a = b.
Proof.
  unfold jsstring_eqb. destruct (list_eq_dec ascii_dec a b); split;
    congruence.
Qed.

Lemma jsstring_eqb_neq a b : jsstring_eqb a b = false <-> a <> b.
Proof.
  unfold jsstring_eqb. destruct (list_eq_dec ascii_dec a b); split;
    congruence.
Qed.

Lemma ends_with_iff suffix s :
  ends_with suffix s = true <-> exists stem, s = stem ++ suffix.
Proof.
  induction s as [|c t IH]; simpl.
  - rewrite orb_false_r, jsstring_eqb_eq. split.
    + intros <-. now exists [].
    + intros [stem E]. symmetry in E. apply app_eq_nil in E. symmetry. tauto.
  - rewrite orb_true_iff, jsstring_eqb_eq, IH. split.
    + intros [<- | [stem ->]]; [now exists [] | now exists (c :: stem)].
    + intros [[|d stem] E]; simpl in E.
      * now left.
      * injection E as -> ->. right. now exists stem.
Qed.

Lemma ends_with_length suffix s :
  ends_with suffix s = true -> length suffix <= length s.
Proof.
  intros H. apply ends_with_iff in H as [stem ->]. rewrite length_app. lia.
Qed.

Lemma ends_with_cons suffix c t :
  c :: t <> suffix -> ends_with suffix (c :: t) = ends_with suffix t.
Proof.
  intros H. simpl. apply jsstring_eqb_neq in H. now rewrite H.
Qed.

Lemma drop_last_cons n c t :
  n <= length t -> drop_last n (c :: t) = c :: drop_last n t.
Proof.
  intros H. unfold drop_last. simpl length.
  replace (S (length t) - n) with (S (length t - n)) by lia. reflexivity.
Qed.

Lemma drop_last_app stem suffix :
  drop_last (length suffix) (stem ++ suffix) = stem.
Proof.
  unfold drop_last. rewrite length_app.
  replace (length stem + length suffix - length suffix) with (length stem + 0)
    by lia.
  rewrite firstn_app_2. simpl. apply app_nil_r.
Qed.

(** *** The test [word.lastIndexOf('le') !== word.length - 2] *)

Lemma lastIndexOf_le_short c i best :
  lastIndexOf_from (lit "le") [c] i best = best.
Proof.
  change (lit "le") with ["l"; "e"]%char.
  cbn [lastIndexOf_from prefixb]. now rewrite andb_false_r.
Qed.

Lemma lastIndexOf_from_le s :
  forall i best, (best < i)%Z -> 2 <= length s ->
    (lastIndexOf_from (lit "le") s i best =? i + Z.of_nat (length s) - 2)%Z
    = ends_with (lit "le") s.
Proof.
  induction s as [|c t IH]; intros i best Hb Hl; simpl in Hl; [lia|].
  destruct t as [|d t']; simpl in Hl; [lia|].
  destruct t' as [|d' t''].
  - (* two characters *)
    change (lastIndexOf_from (lit "le") [c; d] i best) with
      (lastIndexOf_from (lit "le") [d] (i + 1)
         (if prefixb (lit "le") [c; d] then i else best)).
    rewrite lastIndexOf_le_short.
    change (ends_with (lit "le") [c; d]) with
      (jsstring_eqb [c; d] (lit "le") || (jsstring_eqb [d] (lit "le") || (jsstring_eqb [] (lit "le") || false))).
    replace (jsstring_eqb [d] (lit "le")) with false
      by (symmetry; apply jsstring_eqb_neq; discriminate).
    replace (jsstring_eqb [] (lit "le")) with false
      by (symmetry; apply jsstring_eqb_neq; discriminate).
    rewrite !orb_false_r.
    change (prefixb (lit "le") [c; d]) with
      (Ascii.eqb "l"%char c && (Ascii.eqb "e"%char d && true)).
    destruct (Ascii.eqb "l"%char c && (Ascii.eqb "e"%char d && true)) eqn:Hp.
    + rewrite andb_true_r in Hp.
      apply andb_true_iff in Hp as [H1 H2].
      apply Ascii.eqb_eq in H1, H2. subst c d.
      cbn. apply Z.eqb_eq. lia.
    + transitivity false.
      * apply Z.eqb_neq. cbn [length]. lia.
      * symmetry. apply jsstring_eqb_neq. intros E. injection E as -> ->.
        rewrite !Ascii.eqb_refl in Hp. discriminate Hp.
  - (* more than two *)
    rewrite ends_with_cons.
    2:{ intros E. apply (f_equal (@length _)) in E. discriminate E. }
    change (lastIndexOf_from (lit "le") (c :: d :: d' :: t'') i best) with
      (lastIndexOf_from (lit "le") (d :: d' :: t'') (i + 1)
         (if prefixb (lit "le") (c :: d :: d' :: t'') then i else best)).
    rewrite <- (IH (i + 1)%Z (if prefixb (lit "le") (c :: d :: d' :: t'') then i else best)).
    + f_equal. cbn [length]. lia.
    + destruct (prefixb _ _); lia.
    + simpl. lia.
Qed.

Lemma lastIndexOf_le s :
  2 <= length s ->
  (lastIndexOf (lit "le") s =? Z.of_nat (length s) - 2)%Z
  = ends_with (lit "le") s.
Proof.
  intros H. unfold lastIndexOf.
  rewrite <- (lastIndexOf_from_le s 0 (-1)) by (lia || assumption).
  reflexivity.
Qed.

(** *** The replacement of [/(es|ed|e)$/] *)

Lemma replace_final_suffixes s :
  replace_final [lit "es"; lit "ed"; lit "e"] s = without_final_suffix s.
Proof.
  induction s as [|c t IH]; [reflexivity|].
  cbn [replace_final existsb]. rewrite orb_false_r.
  destruct (jsstring_eqb (c :: t) (lit "es")) eqn:E1.
  { apply jsstring_eqb_eq in E1. rewrite E1. reflexivity. }
  destruct (jsstring_eqb (c :: t) (lit "ed")) eqn:E2.
  { apply jsstring_eqb_eq in E2. rewrite E2. reflexivity. }
  destruct (jsstring_eqb (c :: t) (lit "e")) eqn:E3.
  { apply jsstring_eqb_eq in E3. rewrite E3. reflexivity. }
  apply jsstring_eqb_neq in E1, E2, E3. cbn [orb].
  rewrite IH. unfold without_final_suffix.
  rewrite !ends_with_cons by assumption.
  destruct (ends_with (lit "es") t) eqn:H1.
  { apply ends_with_length in H1. now rewrite drop_last_cons. }
  destruct (ends_with (lit "ed") t) eqn:H2.
  { apply ends_with_length in H2. now rewrite drop_last_cons. }
  destruct (ends_with (lit "e") t) eqn:H3.
  { apply ends_with_length in H3. now rewrite drop_last_cons. }
  reflexivity.
Qed.

(** *** Counting the vowels that are left *)

Lemma vowels_after_replace_runs s :
  forall prev,
    length (filter is_vowel (replace_runs_from is_vowel "a"%char prev s))
    = vowel_runs_from prev s.
Proof.
  induction s as [|c t IH]; intros prev; [reflexivity|].
  cbn [replace_runs_from vowel_runs_from].
  destruct (is_vowel c) eqn:Hc.
  - destruct prev.
    + apply IH.
    + change (filter is_vowel ("a"%char :: ?l)) with ("a"%char :: filter is_vowel l).
      cbn [filter]. change (is_vowel "a"%char) with true. cbn [length].
      now rewrite IH.
  - cbn [filter]. rewrite Hc. apply IH.
Qed.

Lemma match_class_length p s :
  match match_class p s with
  | None => 0
  | Some matches => length matches
  end = length (filter p s).
Proof.
  unfold match_class. destruct (filter p s); [reflexivity|].
  now rewrite length_map.
Qed.

Lemma getNumSyllablesInWord_long w :
  3 < length w -> existsb is_whitespace w = false ->
  getNumSyllablesInWord (VString w)
  = Normal (vowel_runs (counted_part (toLowerCase w))).
Proof.
  intros Hl Hw. unfold getNumSyllablesInWord.
  destruct (Nat.eqb_spec (length w) 0); [lia|].
  rewrite search_absent_iff, Hw. cbn [negb].
  destruct (Nat.leb_spec (length w) 3); [lia|].
  assert (Hlen : length (toLowerCase w) = length w) by apply length_map.
  rewrite lastIndexOf_le by lia.
  rewrite replace_final_suffixes.
  fold (counted_part (toLowerCase w)).
  set (stem := if negb (ends_with (lit "le") (toLowerCase w)) then _ else _).
  assert (stem = counted_part (toLowerCase w)) as ->.
  { unfold stem, counted_part. now destruct (ends_with _ _). }
  pose proof (match_class_length is_vowel
                (replace_runs is_vowel "a"%char (counted_part (toLowerCase w)))) as Hm.
  unfold replace_runs in *. rewrite vowels_after_replace_runs in Hm.
  unfold vowel_runs. rewrite <- Hm.
  now destruct (match_class _ _).
Qed.

(** C7, as the specification states it, fails: the guards for the empty
    string and for white space come before the rule for short words. *)
Lemma getNumSyllablesInWord_short_guarded :
  getNumSyllablesInWord (VString []) = Throw (Thrown "Empty string.")
  /\ getNumSyllablesInWord (VString (lit " a"))
     = Throw (Thrown "Contains whitespace.")
  /\ ~ (forall w : jsstring,
          length w <= 3 -> getNumSyllablesInWord (VString w) = Normal 1).
Proof.
  repeat split. intros H. specialize (H [] (Nat.le_0_l 3)). discriminate H.
Qed.

(** C7 (amended): a word of one to three characters with no white space in
    it counts as one syllable, whatever its characters are. *)
Theorem getNumSyllablesInWord_short :
  forall w : jsstring,
    0 < length w -> length w <= 3 -> existsb is_whitespace w = false ->
    getNumSyllablesInWord (VString w) = Normal 1.
Proof.
  intros w Hpos Hle Hw. unfold getNumSyllablesInWord.
  destruct (Nat.eqb_spec (length w) 0); [lia|].
  rewrite search_absent_iff, Hw. cbn [negb].
  destruct (Nat.leb_spec (length w) 3); [reflexivity | lia].
Qed.

Lemma getNumSyllablesInWord_short_cat :
  0 < length (lit "cat") /\ length (lit "cat") <= 3
  /\ existsb is_whitespace (lit "cat") = false
  /\ getNumSyllablesInWord (VString (lit "cat")) = Normal 1.
Proof.
  assert (H0 : 0 < length (lit "cat")) by (vm_compute; lia).
  assert (H1 : length (lit "cat") <= 3) by (vm_compute; lia).
  assert (H2 : existsb is_whitespace (lit "cat") = false) by reflexivity.
  exact (conj H0 (conj H1 (conj H2
           (getNumSyllablesInWord_short (lit "cat") H0 H1 H2)))).
Defined.

(** C8: for a word of more than three characters (and no white space),
    the estimate is the number of vowel runs of the lower-cased word
    without its final -es, -ed or -e, one suffix at most and the first of
    the three that it ends with, unless the lower-cased word ends with
    -le, which keeps its ending; "little" has 2 syllables and "hoped" 1. *)
Theorem getNumSyllablesInWord_final_suffix :
  (forall w : jsstring,
     3 < length w -> existsb is_whitespace w = false ->
     let word := toLowerCase w in
     getNumSyllablesInWord (VString w)
     = Normal (vowel_runs (if ends_with (lit "le") word then word
                           else without_final_suffix word))
     /\ (without_final_suffix word = word
         \/ word = without_final_suffix word ++ lit "es"
         \/ word = without_final_suffix word ++ lit "ed"
         \/ word = without_final_suffix word ++ lit "e"))
  /\ getNumSyllablesInWord (VString (lit "little")) = Normal 2
  /\ getNumSyllablesInWord (VString (lit "hoped")) = Normal 1.
Proof.
  split; [|split; reflexivity].
  intros w Hl Hw word. split.
  - apply getNumSyllablesInWord_long; assumption.
  - unfold without_final_suffix.
    destruct (ends_with (lit "es") word) eqn:H1.
    { apply ends_with_iff in H1 as [stem ->]. right; left.
      pose proof (drop_last_app stem (lit "es")) as E.
      change (length (lit "es")) with 2 in E. now rewrite E. }
    destruct (ends_with (lit "ed") word) eqn:H2.
    { apply ends_with_iff in H2 as [stem ->]. right; right; left.
      pose proof (drop_last_app stem (lit "ed")) as E.
      change (length (lit "ed")) with 2 in E. now rewrite E. }
    destruct (ends_with (lit "e") word) eqn:H3.
    { apply ends_with_iff in H3 as [stem ->]. right; right; right.
      pose proof (drop_last_app stem (lit "e")) as E.
      change (length (lit "e")) with 1 in E. now rewrite E. }
    now left.
Qed.

Lemma getNumSyllablesInWord_final_suffix_hopes :
  3 < length (lit "Hopes") /\ existsb is_whitespace (lit "Hopes") = false
  /\ getNumSyllablesInWord (VString (lit "Hopes"))
     = Normal (vowel_runs (lit "hop")).
Proof.
  assert (H0 : 3 < length (lit "Hopes")) by (vm_compute; lia).
  assert (H1 : existsb is_whitespace (lit "Hopes") = false) by reflexivity.
  exact (conj H0 (conj H1
           (proj1 (proj1 getNumSyllablesInWord_final_suffix (lit "Hopes") H0 H1)))).
Defined.

(** ** [removeEmptyWords] *)

Lemma findFirstEmptyWord_from_none ary i :
  forallb has_letter ary = true -> findFirstEmptyWord_from ary i = (-1)%Z.
Proof.
  revert i. induction ary as [|w rest IH]; intros i H; [reflexivity|].
  cbn [forallb] in H. apply andb_true_iff in H as [Hw Hr].
  cbn [findFirstEmptyWord_from]. rewrite search_absent_iff.
  unfold has_letter in Hw. rewrite Hw. cbn [negb]. now apply IH.
Qed.

Lemma findFirstEmptyWord_from_some l1 w l2 i :
  forallb has_letter l1 = true -> has_letter w = false ->
  findFirstEmptyWord_from (l1 ++ w :: l2) i = (i + Z.of_nat (length l1))%Z.
Proof.
  revert i. induction l1 as [|v l1 IH]; intros i H1 Hw.
  - cbn [app findFirstEmptyWord_from length]. rewrite search_absent_iff.
    unfold has_letter in Hw. rewrite Hw. cbn. lia.
  - cbn [forallb] in H1. apply andb_true_iff in H1 as [Hv H1].
    cbn [app findFirstEmptyWord_from]. rewrite search_absent_iff.
    unfold has_letter in Hv. rewrite Hv. cbn [negb].
    rewrite IH by assumption. cbn [length]. lia.
Qed.

Lemma first_empty_word ary :
  forallb has_letter ary = true
  \/ exists l1 w l2,
       ary = l1 ++ w :: l2 /\ forallb has_letter l1 = true
       /\ has_letter w = false.
Proof.
  induction ary as [|v rest IH]; [now left|].
  destruct (has_letter v) eqn:Hv.
  - destruct IH as [H | (l1 & w & l2 & -> & H1 & Hw)].
    + left. cbn. now rewrite Hv.
    + right. exists (v :: l1), w, l2. cbn. now rewrite Hv.
  - right. now exists [], v, rest.
Qed.

Lemma splice1_middle (l1 : list jsstring) w l2 :
  splice1 (l1 ++ w :: l2) (length l1) = l1 ++ l2.
Proof. induction l1 as [|v l1 IH]; cbn; [reflexivity | now rewrite IH]. Qed.

Lemma filter_all (f : jsstring -> bool) l :
  forallb f l = true -> filter f l = l.
Proof.
  induction l as [|v l IH]; cbn; [reflexivity|].
  intros H. apply andb_true_iff in H as [-> H]. now rewrite IH.
Qed.

(** The loop of [removeEmptyWords] ends within as many rounds as the array
    has entries, plus the one that finds nothing. *)
Lemma removeEmptyWords_loop_filter fuel :
  forall ary, length ary < fuel ->
    removeEmptyWords_loop fuel ary = filter has_letter ary.
Proof.
  induction fuel as [|fuel IH]; intros ary Hf; [lia|].
  cbn [removeEmptyWords_loop]. unfold findFirstEmptyWord.
  destruct (first_empty_word ary) as [H | (l1 & w & l2 & -> & H1 & Hw)].
  - rewrite findFirstEmptyWord_from_none by assumption. cbn.
    symmetry. now apply filter_all.
  - rewrite findFirstEmptyWord_from_some by assumption.
    replace (0 + Z.of_nat (length l1))%Z with (Z.of_nat (length l1)) by lia.
    destruct (Z.eqb_spec (Z.of_nat (length l1)) (-1)); [lia|]. cbn [negb].
    rewrite Nat2Z.id, splice1_middle, IH.
    + rewrite !filter_app. cbn [filter]. now rewrite Hw.
    + rewrite length_app in *. cbn [length] in Hf. lia.
Qed.

Lemma removeEmptyWords_filter ary :
  removeEmptyWords ary = filter has_letter ary.
Proof. apply removeEmptyWords_loop_filter. lia. Qed.

(** ** [getWords] *)

Lemma getWords_string text :
  getWords (VString text) =
  Normal
    (if length text =? 0 then []
     else filter has_letter
            (trimNonLettersFromArray
               (split is_space (replace_runs is_lf SP text)))).
Proof.
  unfold getWords. destruct (length text =? 0); [reflexivity|].
  now rewrite removeEmptyWords_filter.
Qed.

Lemma getWords_have_letters text words :
  getWords (VString text) = Normal words ->
  Forall (fun w => has_letter w = true) words.
Proof.
  rewrite getWords_string. intros [= <-].
  destruct (length text =? 0); [constructor|].
  apply Forall_forall. intros w Hw. now apply filter_In in Hw.
Qed.

(** Letters are neither made nor lost by [trimNonLetters]... *)
Lemma existsb_replace_first_letter s :
  existsb is_letter (replace_first is_lf SP s) = true ->
  existsb is_letter s = true.
Proof.
  induction s as [|c t IH]; cbn; [auto|].
  destruct (is_lf c); cbn.
  - intros ->. apply orb_true_r.
  - intros H. apply orb_true_iff in H as [-> | H]; [reflexivity|].
    rewrite IH by assumption. apply orb_true_r.
Qed.

Lemma trimNonLetters_letterless s :
  has_letter s = false -> has_letter (trimNonLetters s) = false.
Proof.
  unfold has_letter, trimNonLetters. intros H.
  destruct (existsb is_letter (replace_trailing _ _)) eqn:E; [|reflexivity].
  apply existsb_replace_trailing, existsb_replace_leading,
    existsb_replace_first_letter in E. congruence.
Qed.

Lemma array_set_Forall (P : jsstring -> Prop) ary k v :
  Forall P ary -> P v -> Forall P (array_set ary k v).
Proof.
  intros H Hv. revert k. induction H as [|a l Ha Hl IH]; intros k.
  - constructor.
  - destruct k; cbn; constructor; auto.
Qed.

Lemma array_string_at_In ary key n s :
  array_string_at ary key = Some (n, s) -> In s ary.
Proof.
  unfold array_string_at. destruct (array_index key) as [m|]; [|discriminate].
  destruct (_ <? _)%N; [|discriminate].
  destruct (nth_error ary (N.to_nat m)) eqn:E; [|discriminate].
  intros [= <- <-]. eapply nth_error_In; eauto.
Qed.

(** ... so an array of tokens without letters stays one. *)
Lemma trimNonLettersFromArray_each_letterless todo :
  forall k ary,
    Forall (fun w => has_letter w = false) ary ->
    Forall (fun w => has_letter w = false)
      (trimNonLettersFromArray_each todo k ary).
Proof.
  induction todo as [|todo IH]; intros k ary H; [exact H|].
  cbn [trimNonLettersFromArray_each].
  destruct (nth_error ary k) as [i|]; [|exact H].
  apply IH. destruct (array_string_at ary i) as [[n s]|] eqn:E; [|exact H].
  apply array_set_Forall; [exact H|].
  apply trimNonLetters_letterless.
  apply array_string_at_In in E. rewrite Forall_forall in H. now apply H.
Qed.

Lemma split_Forall (P : ascii -> Prop) sep s :
  Forall P s -> Forall (Forall P) (split sep s).
Proof.
  induction 1 as [|c t Hc Ht IH]; cbn.
  - constructor; constructor.
  - destruct (sep c).
    + constructor; [constructor | exact IH].
    + destruct (split sep t) as [|w ws]; [repeat constructor; auto|].
      inversion IH; subst. constructor; [constructor|]; auto.
Qed.

Lemma replace_runs_from_Forall (P : ascii -> Prop) p r s :
  P r -> Forall P s -> forall inrun, Forall P (replace_runs_from p r inrun s).
Proof.
  intros Hr. induction 1 as [|c t Hc Ht IH]; intros inrun; cbn; [constructor|].
  destruct (p c); [destruct inrun|]; auto.
Qed.

Lemma letterless_Forall w :
  Forall (fun c => is_letter c = false) w -> has_letter w = false.
Proof.
  unfold has_letter. induction 1 as [|c t Hc Ht IH]; cbn; [reflexivity|].
  now rewrite Hc, IH.
Qed.

(** A text without letters has no words. *)
Lemma getWords_letterless text :
  Forall (fun c => is_letter c = false) text ->
  getWords (VString text) = Normal [].
Proof.
  intros H. rewrite getWords_string.
  destruct (length text =? 0); [reflexivity|]. f_equal.
  assert (Hl : Forall (fun w => has_letter w = false)
                 (trimNonLettersFromArray
                    (split is_space (replace_runs is_lf SP text)))).
  { apply trimNonLettersFromArray_each_letterless.
    eapply Forall_impl; [apply letterless_Forall|].
    apply split_Forall. apply replace_runs_from_Forall; [reflexivity | exact H]. }
  induction Hl as [|w l Hw Hl IH]; cbn; [reflexivity|]. now rewrite Hw.
Qed.

(** ** Numbers: division by one *)

Lemma div_eucl_exact a b q :
  (0 < b)%Z -> a = (q * b)%Z -> Z.div_eucl a b = (q, 0%Z).
Proof.
  intros Hb ->.
  generalize (Z.div_mul q b ltac:(lia)) (Z.mod_mul q b ltac:(lia)).
  unfold Z.div, Z.modulo. destruct (Z.div_eucl (q * b) b) as [q' r'].
  cbn. intros -> ->. reflexivity.
Qed.

(** The quotient of a binary64 mantissa and exponent by 1.0, which is
    2^52 * 2^-52, rounds to the same mantissa and exponent. *)
Lemma SFdiv_one_finite m e :
  bounded prec emax m e = true ->
  (let '(mz, ez, lz) :=
     SFdiv_core_binary prec emax (Zpos m) e (Zpos 4503599627370496) (-52) in
   binary_round_aux prec emax false mz ez lz)
  = S754_finite false m e.
Proof.
  unfold bounded, canonical_mantissa, fexp, emin.
  change prec with 53%Z; change emax with 1024%Z.
  intros H. apply andb_true_iff in H as [Hc Hb].
  apply Z.eqb_eq in Hc. apply Z.leb_le in Hb.
  unfold SFdiv_core_binary.
  change (Zdigits2 (Zpos m)) with (Zpos (digits2_pos m)).
  change (Zdigits2 (Zpos 4503599627370496)) with 53%Z.
  unfold fexp, emin.
  set (d := Zpos (digits2_pos m)) in *.
  assert (Hcase : ((d = 53 /\ -1074 < e) \/ (e = -1074 /\ d <= 53))%Z) by lia.
  destruct Hcase as [[Hd He] | [He Hd]].
  - (* a normal number above the least exponent: the quotient is 2m *)
    replace (Z.min (Z.max (d + e - (53 + -52) - 53) (3 - 1024 - 53)) (e - -52))
      with (e - 1)%Z by lia.
    replace (e - -52 - (e - 1))%Z with 53%Z by lia.
    rewrite (div_eucl_exact (Z.shiftl (Z.pos m) 53) 4503599627370496 (Zpos m~0)).
    2: lia.
    2:{ rewrite Z.shiftl_mul_pow2 by lia.
        change (2 ^ 53)%Z with (2 * 4503599627370496)%Z. lia. }
    cbv iota beta. change (new_location 4503599627370496 0) with loc_Exact.
    unfold binary_round_aux, shr_fexp, fexp, emin.
    change (Zdigits2 (Z.pos m~0)) with (Zpos (Pos.succ (digits2_pos m))).
    rewrite Pos2Z.inj_succ. fold d.
    replace (Z.max (Z.succ d + (e - 1) - 53) (3 - 1024 - 53) - (e - 1))%Z
      with 1%Z by lia.
    cbn [shr shr_record_of_loc iter_pos shr_1 shr_m loc_of_shr_record
           round_nearest_even orb].
    replace (e - 1 + 1)%Z with e by lia.
    change (Zdigits2 (Z.pos m)) with d.
    replace (Z.max (d + e - 53) (3 - 1024 - 53) - e)%Z with 0%Z by lia.
    cbn [shr shr_m].
    destruct (Z.leb_spec e (1024 - 53)); [reflexivity | lia].
  - (* the least exponent: the quotient is m *)
    replace (Z.min (Z.max (d + e - (53 + -52) - 53) (3 - 1024 - 53)) (e - -52))
      with e by lia.
    replace (e - -52 - e)%Z with 52%Z by lia.
    rewrite (div_eucl_exact (Z.shiftl (Z.pos m) 52) 4503599627370496 (Zpos m)).
    2: lia.
    2:{ rewrite Z.shiftl_mul_pow2 by lia.
        change (2 ^ 52)%Z with 4503599627370496%Z. lia. }
    cbv iota beta. change (new_location 4503599627370496 0) with loc_Exact.
    unfold binary_round_aux, shr_fexp, fexp, emin.
    change (Zdigits2 (Z.pos m)) with d.
    replace (Z.max (d + e - 53) (3 - 1024 - 53) - e)%Z with 0%Z by lia.
    cbn [shr shr_record_of_loc iter_pos shr_1 shr_m loc_of_shr_record
           round_nearest_even orb].
    change (Zdigits2 (Z.pos m)) with d.
    replace (Z.max (d + e - 53) (3 - 1024 - 53) - e)%Z with 0%Z by lia.
    cbn [shr shr_m].
    destruct (Z.leb_spec e (1024 - 53)); [reflexivity | lia].
Qed.

(** [x / 1] is [x] for every number, NaN and the infinities included. *)
Lemma div_one (x : float) : (x / 1)%float = x.
Proof.
  apply Prim2SF_inj. rewrite div_spec.
  change (Prim2SF 1) with (S754_finite false 4503599627370496 (-52)).
  generalize (Prim2SF_valid x).
  destruct (Prim2SF x) as [s | s | | s m e];
    cbn [SF64div SFdiv valid_binary]; intros Hv.
  - destruct s; reflexivity.
  - destruct s; reflexivity.
  - reflexivity.
  - unfold SF64div, SFdiv.
    generalize (SFdiv_one_finite m e Hv).
    destruct (SFdiv_core_binary prec emax (Z.pos m) e
                (Zpos 4503599627370496) (-52)) as [[mz ez] lz].
    rewrite xorb_false_r.
    unfold binary_round_aux.
    destruct (shr_fexp prec emax mz ez lz) as [mrs' e'].
    destruct (shr_fexp prec emax _ e' loc_Exact) as [mrs'' e''].
    destruct (shr_m mrs''); try discriminate.
    destruct (e'' <=? emax - prec)%Z; try discriminate.
    intros [= -> ->]. reflexivity.
Qed.

(** ** [getSentences] *)

Lemma terminator_not_letter c : is_terminator c = true -> is_letter c = false.
Proof.
  unfold is_terminator, is_letter.
  destruct (N.eqb_spec (code c) 46) as [->|]; [reflexivity|].
  destruct (N.eqb_spec (code c) 63) as [->|]; [reflexivity|].
  destruct (N.eqb_spec (code c) 33) as [->|]; [reflexivity|].
  discriminate.
Qed.

Lemma lf_not_letter c : is_lf c = true -> is_letter c = false.
Proof.
  unfold is_lf, is_letter.
  destruct (N.eqb_spec (code c) 10) as [->|]; [reflexivity | discriminate].
Qed.

Lemma existsb_false_Forall (p : ascii -> bool) s :
  existsb p s = false <-> Forall (fun c => p c = false) s.
Proof.
  induction s as [|c t IH]; cbn.
  - split; [constructor | reflexivity].
  - rewrite orb_false_iff, IH. split.
    + intros [? ?]. now constructor.
    + inversion 1; auto.
Qed.

Lemma getSentences_string text :
  getSentences (VString text) =
  Normal
    (if length text =? 0 then []
     else
       let text := replace_runs is_lf SP text in
       scan_sentences [] text
       ++ match scan_final [] text with
          | Some m => [m]
          | None => []
          end).
Proof.
  unfold getSentences, match_sentences, match_final.
  destruct (length text =? 0); [reflexivity|]. cbv zeta.
  destruct (scan_sentences [] _), (scan_final [] _); cbn;
    now rewrite ?app_nil_r.
Qed.

(** Nothing matched and no final fragment: the text is made of sentence
    terminators only. *)
Lemma scan_nothing s :
  forall cur,
    scan_sentences cur s = [] -> scan_final cur s = None ->
    cur = [] /\ Forall (fun c => is_terminator c = true) s.
Proof.
  induction s as [|c t IH]; intros cur Hs Hf.
  - cbn in Hf. destruct cur; [now split | discriminate].
  - cbn [scan_sentences scan_final] in Hs, Hf.
    destruct (is_terminator c) eqn:Hc.
    + destruct cur as [|d cur].
      * destruct (IH [] Hs Hf) as [_ H]. split; [reflexivity|]. now constructor.
      * exfalso. destruct t as [|e t']; [discriminate|].
        destruct (is_rparen e); discriminate.
    + destruct (IH (c :: cur) Hs Hf) as [? _]. discriminate.
Qed.

Lemma replace_runs_from_letterless s :
  forall inrun,
    Forall (fun c => is_letter c = false) (replace_runs_from is_lf SP inrun s) ->
    Forall (fun c => is_letter c = false) s.
Proof.
  induction s as [|c t IH]; intros inrun H; [constructor|].
  cbn [replace_runs_from] in H. destruct (is_lf c) eqn:Hc.
  - constructor; [now apply lf_not_letter|].
    destruct inrun; [|inversion H; subst]; eapply IH; eassumption.
  - inversion H; subst. constructor; [assumption|]. eapply IH; eassumption.
Qed.

(** A text with no sentence has no letter... *)
Lemma getSentences_none text :
  getSentences (VString text) = Normal [] ->
  Forall (fun c => is_letter c = false) text.
Proof.
  rewrite getSentences_string. intros [= H].
  destruct text as [|c t]; [constructor|]. cbn [length Nat.eqb] in H.
  cbv zeta in H. apply app_eq_nil in H as [Hs Hf].
  destruct (scan_final [] _) eqn:E; [discriminate|].
  destruct (scan_nothing _ _ Hs E) as [_ Ht].
  apply (replace_runs_from_letterless _ false).
  eapply Forall_impl; [|exact Ht]. apply terminator_not_letter.
Qed.

(** ... and so no word. *)
Lemma no_sentence_no_word text :
  getSentences (VString text) = Normal [] -> getWords (VString text) = Normal [].
Proof. intros H. now apply getWords_letterless, getSentences_none. Qed.

Lemma scan_sentences_unterminated s :
  Forall (fun c => is_terminator c = false) s ->
  forall cur, scan_sentences cur s = [].
Proof.
  induction 1 as [|c t Hc Ht IH]; intros cur; [reflexivity|].
  cbn [scan_sentences]. rewrite Hc. apply IH.
Qed.

Lemma scan_final_unterminated s :
  Forall (fun c => is_terminator c = false) s ->
  forall cur, cur ++ s <> [] -> scan_final cur s = Some (rev cur ++ s).
Proof.
  induction 1 as [|c t Hc Ht IH]; intros cur Hne.
  - rewrite app_nil_r in *. cbn. destruct cur; [congruence | reflexivity].
  - cbn [scan_final]. rewrite Hc, IH by discriminate.
    cbn [rev]. now rewrite <- app_assoc.
Qed.

Lemma replace_runs_nonempty p r s : s <> [] -> replace_runs p r s <> [].
Proof.
  destruct s as [|c t]; [congruence|]. intros _. unfold replace_runs. cbn.
  destruct (p c); discriminate.
Qed.

(** A text with no terminator is one sentence: the text, its runs of line
    feeds replaced by spaces. *)
Lemma getSentences_unterminated text :
  text <> [] -> existsb is_terminator text = false ->
  getSentences (VString text) = Normal [replace_runs is_lf SP text].
Proof.
  intros Hne Ht. rewrite getSentences_string.
  destruct text as [|c t]; [congruence|]. cbn [length Nat.eqb]. cbv zeta.
  assert (H : Forall (fun c => is_terminator c = false)
                (replace_runs is_lf SP (c :: t))).
  { apply replace_runs_from_Forall; [reflexivity|].
    now apply existsb_false_Forall. }
  rewrite scan_sentences_unterminated by exact H.
  rewrite scan_final_unterminated; [reflexivity | exact H |].
  cbn [app]. now apply replace_runs_nonempty.
Qed.

Lemma replace_runs_absent p r s : existsb p s = false -> replace_runs p r s = s.
Proof.
  unfold replace_runs. induction s as [|c t IH]; cbn; [reflexivity|].
  intros H. apply orb_false_iff in H as [-> H]. now rewrite IH.
Qed.

(** ** [getNumSyllablesPerWord] and [parseText] *)

Lemma getNumSyllablesPerWord_each_result aryOfWords todo :
  forall result c,
    fst (getNumSyllablesPerWord_each aryOfWords todo result c)
    = Normal (result ++ syllables_of_words todo).
Proof.
  induction todo as [|w rest IH]; intros result c.
  - cbn. now rewrite app_nil_r.
  - cbn [getNumSyllablesPerWord_each syllables_of_words flat_map].
    unfold bind, try_catch, lift, ret, log.
    destruct (getNumSyllablesInWord (VString w)) as [n|e].
    + rewrite IH. now rewrite <- app_assoc.
    + rewrite IH. reflexivity.
Qed.

Lemma getNumSyllablesPerWord_result aryOfWords c :
  fst (getNumSyllablesPerWord aryOfWords c)
  = Normal (syllables_of_words aryOfWords).
Proof. apply getNumSyllablesPerWord_each_result. Qed.

(** [parseText] returns on every string. *)
Lemma parseText_string text c0 :
  exists r c,
    parseText (VString text) c0 = (Normal r, c) /\ parsed_from text r.
Proof.
  unfold parseText, bind, lift.
  rewrite getSentences_string, getWords_string.
  match goal with
  | |- context [getNumSyllablesPerWord ?ws c0] =>
      pose proof (getNumSyllablesPerWord_result ws c0) as Hs;
      destruct (getNumSyllablesPerWord ws c0) as [res c1]
  end.
  cbn [fst] in Hs. subst res.
  eexists. exists c1. split; [reflexivity|].
  unfold parsed_from. repeat split.
  - apply getSentences_string.
  - apply getWords_string.
Qed.

(** ** The words of a passage *)

(** A token is trimmed only where another token of the array names its
    index: where no token is the numeral of an index, [forEach]'s callback
    leaves the array as it is. *)
Lemma trimNonLettersFromArray_each_unchanged todo :
  forall k ary,
    Forall (fun w => array_index w = None) ary ->
    trimNonLettersFromArray_each todo k ary = ary.
Proof.
  induction todo as [|todo IH]; intros k ary H; [reflexivity|].
  cbn [trimNonLettersFromArray_each].
  destruct (nth_error ary k) as [i|] eqn:E; [|reflexivity].
  assert (Hi : array_index i = None).
  { rewrite Forall_forall in H. apply H. eapply nth_error_In; eauto. }
  unfold array_string_at. rewrite Hi. now apply IH.
Qed.

(** So the words of a passage in which no token is a numeral are its
    tokens with a letter, as the split left them. *)
Lemma getWords_untrimmed text :
  Forall (fun w => array_index w = None)
    (split is_space (replace_runs is_lf SP text)) ->
  getWords (VString text)
  = Normal (if length text =? 0 then []
            else filter has_letter
                   (split is_space (replace_runs is_lf SP text))).
Proof.
  intros H. rewrite getWords_string. unfold trimNonLettersFromArray.
  now rewrite trimNonLettersFromArray_each_unchanged.
Qed.

(** C1: on "Hello, world!" [getWords] returns the two tokens with their
    punctuation, "Hello," and "world!": the callback of
    [trimNonLettersFromArray] reads [ary[i]] with the token itself for
    [i], finds no string there and trims nothing. *)
Theorem getWords_hello_world_untrimmed :
  getWords (VString (lit "Hello, world!"))
  = Normal [lit "Hello,"; lit "world!"]
  /\ trimNonLetters (lit "Hello,") = lit "Hello"
  /\ trimNonLetters (lit "world!") = lit "world".
Proof. repeat split. Qed.

(** ** The syllables of the words *)

Lemma arrayAdd_from l :
  forall acc,
    fold_left (fun result num => result + num) l acc = acc + list_sum l.
Proof.
  induction l as [|n l IH]; intros acc.
  - cbn. lia.
  - cbn [fold_left]. rewrite IH.
    change (list_sum (n :: l)) with (n + list_sum l). lia.
Qed.

Lemma arrayAdd_sum l : arrayAdd l = list_sum l.
Proof. unfold arrayAdd. now rewrite arrayAdd_from. Qed.

Lemma syllables_of_words_app a b :
  syllables_of_words (a ++ b) = syllables_of_words a ++ syllables_of_words b.
Proof. apply flat_map_app. Qed.

(** The estimation fails on the empty string and on a string that holds
    white space, and on no other string. *)
Lemma getNumSyllablesInWord_throws w :
  w = [] \/ existsb is_whitespace w = true ->
  exists msg, getNumSyllablesInWord (VString w) = Throw (Thrown msg).
Proof.
  unfold getNumSyllablesInWord. intros [-> | H].
  - now eexists.
  - destruct (length w =? 0); [now eexists|].
    rewrite search_absent_iff, H. now eexists.
Qed.

Lemma getNumSyllablesInWord_returns w :
  w <> [] -> existsb is_whitespace w = false ->
  getNumSyllablesInWord (VString w) = Normal (syllable_count w).
Proof.
  intros Hne Hw. unfold syllable_count.
  assert (length w <> 0) by (destruct w; [congruence | discriminate]).
  destruct (Nat.leb_spec (length w) 3) as [Hle | Hgt].
  - unfold getNumSyllablesInWord.
    destruct (Nat.eqb_spec (length w) 0); [lia|].
    rewrite search_absent_iff, Hw. cbn [negb].
    apply Nat.leb_le in Hle. now rewrite Hle.
  - now apply getNumSyllablesInWord_long.
Qed.

Lemma syllables_of_words_filter ws :
  Forall (fun w => has_letter w = true) ws ->
  syllables_of_words ws = map syllable_count (filter no_whitespace ws).
Proof.
  induction 1 as [|w ws Hw Hws IH]; [reflexivity|].
  cbn [syllables_of_words flat_map filter]. fold (syllables_of_words ws).
  rewrite IH.
  assert (Hne : w <> []) by (intros ->; discriminate Hw).
  replace (no_whitespace w) with (negb (existsb is_whitespace w))
    by reflexivity.
  destruct (existsb is_whitespace w) eqn:E; cbn [negb].
  - destruct (getNumSyllablesInWord_throws w (or_intror E)) as [msg ->].
    reflexivity.
  - now rewrite getNumSyllablesInWord_returns.
Qed.

Lemma filter_length_all (f : jsstring -> bool) l :
  length (filter f l) = length l <-> forallb f l = true.
Proof.
  induction l as [|w l IH]; cbn; [tauto|].
  pose proof (filter_length_le f l).
  destruct (f w); cbn; [rewrite <- IH; lia|]. split; [lia | discriminate].
Qed.

(** C2: "a\tb" is one word with the tab inside, since [getWords] drops
    the result of [text.replace(/\s+/g, " ")] and splits at the spaces
    alone.  The estimation of the word throws, [syllables] has no entry
    for it, and [words] and [syllables] differ in length.  In
    "a\tb complicated" the one syllable count is that of the second word
    and stands at index 0, so [complexWords] names the first word.  With
    the white space replaced, as the comment of that line has it, the
    passage is "a b" and has a syllable count for each of its two
    words. *)
Theorem parseText_tabbed_word :
  (exists r c,
     parseText (VString tabbed) [] = (Normal r, c)
     /\ words r = [tabbed] /\ syllables r = [])
  /\ ~ (forall text c0 r c,
          parseText (VString text) c0 = (Normal r, c) ->
          length (words r) = length (syllables r))
  /\ (exists r c,
        parseText (VString (tabbed ++ lit " complicated")) [] = (Normal r, c)
        /\ words r = [tabbed; lit "complicated"]
        /\ syllables r = [3]
        /\ complexWords r = [VString tabbed])
  /\ replace_runs is_whitespace SP tabbed = lit "a b"
  /\ (exists r c,
        parseText (VString (lit "a b")) [] = (Normal r, c)
        /\ words r = [lit "a"; lit "b"] /\ syllables r = [1; 1]).
Proof.
  assert (E : exists r c,
             parseText (VString tabbed) [] = (Normal r, c)
             /\ words r = [tabbed] /\ syllables r = []).
  { eexists. eexists. split; [vm_compute; reflexivity|]. split; reflexivity. }
  split; [exact E|]. split.
  - destruct E as (r & c & Hr & Hw & Hs). intros H.
    specialize (H _ _ _ _ Hr). rewrite Hw, Hs in H. discriminate H.
  - split.
    + eexists. eexists. split; [vm_compute; reflexivity|].
      repeat split; reflexivity.
    + split; [reflexivity|].
      eexists. eexists. split; [vm_compute; reflexivity|].
      split; reflexivity.
Qed.

(** What the code does on every string: [syllables] lists, in the order
    of [words], the estimates of the words that hold no white space, each
    of them what [getNumSyllablesInWord] returns for the word; it is no
    longer than [words], and as long exactly when no word holds white
    space. *)
Lemma parseText_syllables_of_words :
  forall text c0,
  exists r c,
    parseText (VString text) c0 = (Normal r, c)
    /\ syllables r = map syllable_count (filter no_whitespace (words r))
    /\ (forall w, In w (words r) -> no_whitespace w = true ->
        getNumSyllablesInWord (VString w) = Normal (syllable_count w))
    /\ length (syllables r) <= length (words r)
    /\ (length (syllables r) = length (words r)
        <-> forallb no_whitespace (words r) = true).
Proof.
  intros text c0.
  destruct (parseText_string text c0) as (r & c & Hr & Hp).
  exists r, c. split; [exact Hr|].
  destruct Hp as (_ & _ & _ & Hw & _ & Hs & _).
  apply getWords_have_letters in Hw.
  rewrite Hs, syllables_of_words_filter by exact Hw.
  rewrite length_map. split; [reflexivity|]. split; [|split].
  - intros w Hin Hnw. apply getNumSyllablesInWord_returns.
    + rewrite Forall_forall in Hw. specialize (Hw w Hin).
      intros ->. discriminate Hw.
    + unfold no_whitespace in Hnw. now apply negb_true_iff in Hnw.
  - apply filter_length_le.
  - apply filter_length_all.
Qed.

(** C6: [parseText] returns on every string, whatever its words are.  A
    word on which the estimation throws (the empty string, a string with
    white space) has no entry in [syllables], which holds the estimates of
    the words before it followed by those of the words after it, and
    [numSyllables] is the sum of these entries alone. *)
Theorem parseText_skips_failed_words :
  forall text c0,
  exists r c,
    parseText (VString text) c0 = (Normal r, c)
    /\ parsed_from text r
    /\ numSyllables r = list_sum (syllables_of_words (words r))
    /\ forall before w after,
         words r = before ++ w :: after ->
         w = [] \/ existsb is_whitespace w = true ->
         (exists msg, getNumSyllablesInWord (VString w) = Throw (Thrown msg))
         /\ syllables r = syllables_of_words before ++ syllables_of_words after
         /\ numSyllables r
            = list_sum (syllables_of_words before)
              + list_sum (syllables_of_words after).
Proof.
  intros text c0.
  destruct (parseText_string text c0) as (r & c & Hr & Hp).
  exists r, c. split; [exact Hr|]. split; [exact Hp|].
  destruct Hp as (_ & _ & _ & _ & _ & Hs & Hn & _).
  rewrite Hn, arrayAdd_sum, Hs. split; [reflexivity|].
  intros before w after Hw Hbad.
  destruct (getNumSyllablesInWord_throws w Hbad) as [msg Hmsg].
  split; [now exists msg|].
  assert (E : syllables_of_words (words r)
              = syllables_of_words before ++ syllables_of_words after).
  { rewrite Hw, syllables_of_words_app. cbn [syllables_of_words flat_map].
    now rewrite Hmsg. }
  rewrite E. split; [reflexivity | apply list_sum_app].
Qed.

(** The failing word of C6 at work: in "a\tb c" the first word is skipped
    and logged, the second is counted. *)
Example parseText_skips_tabbed_word :
  exists r c,
    parseText (VString (tabbed ++ lit " c")) [] = (Normal r, c)
    /\ words r = [tabbed; lit "c"] /\ syllables r = [1]
    /\ numSyllables r = 1
    /\ c = [LogString "Error in ReadingAge.getNumSyllablesPerWord";
            LogExn (Thrown "Contains whitespace.");
            LogWord tabbed [tabbed; lit "c"]].
Proof.
  eexists. eexists. split; [vm_compute; reflexivity|]. repeat split.
Qed.

(** ** The ratios of a passage without words or without sentences *)

Lemma length_zero_nil {A} (l : list A) : length l = 0 -> l = [].
Proof. destruct l; [reflexivity | discriminate]. Qed.

(** C5, as the specification states it, fails: "1" is a passage of one
    sentence and no word, and its two ratios per sentence are 0. *)
Lemma parseText_no_word_one_sentence :
  (exists r c,
     parseText (VString (lit "1")) [] = (Normal r, c)
     /\ numSentences r = 1 /\ numWords r = 0
     /\ averageWordsPerSentence r = 0%float
     /\ complexWordsPerSentence r = 0%float)
  /\ ~ (forall text c0 r c,
          parseText (VString text) c0 = (Normal r, c) ->
          numSentences r = 0 \/ numWords r = 0 ->
          nan_or_infinity (averageWordsPerSentence r) = true
          /\ nan_or_infinity (averageSyllablesPerWord r) = true
          /\ nan_or_infinity (complexWordRatio r) = true
          /\ nan_or_infinity (complexWordsPerSentence r) = true).
Proof.
  assert (E : exists r c,
             parseText (VString (lit "1")) [] = (Normal r, c)
             /\ numSentences r = 1 /\ numWords r = 0
             /\ averageWordsPerSentence r = 0%float
             /\ complexWordsPerSentence r = 0%float).
  { eexists. eexists. split; [vm_compute; reflexivity|]. repeat split. }
  split; [exact E|].
  destruct E as (r & c & Hr & _ & Hw & Ha & _). intros H.
  destruct (H _ _ _ _ Hr (or_intror Hw)) as [Hn _].
  rewrite Ha in Hn. discriminate Hn.
Qed.

(** C5 (amended): [parseText] returns on every string.  In the result of
    a passage without words the average of syllables per word and the
    ratio of complex words are NaN, and the two ratios per sentence are
    the quotient of 0 by the number of sentences; a passage without
    sentences has no word either, and all four ratios of its result are
    NaN. *)
Theorem parseText_degenerate :
  forall text c0,
  exists r c,
    parseText (VString text) c0 = (Normal r, c)
    /\ (numWords r = 0 ->
        PrimFloat.is_nan (averageSyllablesPerWord r) = true
        /\ PrimFloat.is_nan (complexWordRatio r) = true
        /\ averageWordsPerSentence r
           = (0 / number_of_nat (numSentences r))%float
        /\ complexWordsPerSentence r
           = (0 / number_of_nat (numSentences r))%float)
    /\ (numSentences r = 0 ->
        numWords r = 0
        /\ PrimFloat.is_nan (averageWordsPerSentence r) = true
        /\ PrimFloat.is_nan (averageSyllablesPerWord r) = true
        /\ PrimFloat.is_nan (complexWordRatio r) = true
        /\ PrimFloat.is_nan (complexWordsPerSentence r) = true).
Proof.
  intros text c0.
  destruct (parseText_string text c0) as (r & c & Hr & Hp).
  exists r, c. split; [exact Hr|].
  destruct Hp as (_ & Hss & Hns & Hws & Hnw & Hsy & Hnsy & Hcp & Hnc & _
                  & Hawps & Haspw & Hcwr & Hcwps & _).
  assert (Hwords : numWords r = 0 ->
                   numSyllables r = 0 /\ numComplexWords r = 0).
  { intros H0. rewrite Hnw in H0. apply length_zero_nil in H0.
    rewrite H0 in Hsy. cbn in Hsy.
    rewrite Hnc, Hcp, Hnsy, Hsy. split; reflexivity. }
  assert (Hnow : numWords r = 0 ->
                 PrimFloat.is_nan (averageSyllablesPerWord r) = true
                 /\ PrimFloat.is_nan (complexWordRatio r) = true
                 /\ averageWordsPerSentence r
                    = (0 / number_of_nat (numSentences r))%float
                 /\ complexWordsPerSentence r
                    = (0 / number_of_nat (numSentences r))%float).
  { intros H0. destruct (Hwords H0) as [H1 H2].
    rewrite Haspw, Hcwr, Hawps, Hcwps, H0, H1, H2. repeat split. }
  split; [exact Hnow|].
  intros H0.
  assert (Hw0 : numWords r = 0).
  { rewrite Hns in H0. apply length_zero_nil in H0. rewrite H0 in Hss.
    apply no_sentence_no_word in Hss. rewrite Hws in Hss.
    injection Hss as Hss. now rewrite Hnw, Hss. }
  destruct (Hwords Hw0) as [_ H2]. destruct (Hnow Hw0) as (H3 & H4 & _).
  repeat split; try assumption.
  - rewrite Hawps, H0, Hw0. reflexivity.
  - rewrite Hcwps, H0, H2. reflexivity.
Qed.

(** ** A passage without a sentence terminator *)

(** C9: a text that is not empty and has none of '.', '!' and '?' is one
    sentence, the whole text (with each run of line feeds turned into a
    space, as [getSentences] does before it matches): [numSentences] is 1
    and [averageWordsPerSentence] is [numWords]. *)
Theorem parseText_unterminated :
  forall text c0,
    text <> [] -> existsb is_terminator text = false ->
    exists r c,
      parseText (VString text) c0 = (Normal r, c)
      /\ sentences r = [replace_runs is_lf SP text]
      /\ (existsb is_lf text = false -> sentences r = [text])
      /\ numSentences r = 1
      /\ averageWordsPerSentence r = number_of_nat (numWords r).
Proof.
  intros text c0 Hne Ht.
  destruct (parseText_string text c0) as (r & c & Hr & Hp).
  exists r, c. split; [exact Hr|].
  destruct Hp as (_ & Hss & Hns & _ & _ & _ & _ & _ & _ & _ & Hawps & _).
  rewrite getSentences_unterminated in Hss by assumption.
  injection Hss as Hss.
  assert (H1 : numSentences r = 1) by now rewrite Hns, <- Hss.
  split; [now symmetry|]. split.
  - intros Hlf. rewrite <- Hss. now rewrite replace_runs_absent.
  - split; [exact H1|]. rewrite Hawps, H1. apply div_one.
Qed.

Lemma parseText_unterminated_here :
  lit "no terminator here" <> []
  /\ existsb is_terminator (lit "no terminator here") = false
  /\ exists r c,
       parseText (VString (lit "no terminator here")) [] = (Normal r, c)
       /\ sentences r = [replace_runs is_lf SP (lit "no terminator here")]
       /\ (existsb is_lf (lit "no terminator here") = false ->
           sentences r = [lit "no terminator here"])
       /\ numSentences r = 1
       /\ averageWordsPerSentence r = number_of_nat (numWords r).
Proof.
  assert (H0 : lit "no terminator here" <> []) by discriminate.
  assert (H1 : existsb is_terminator (lit "no terminator here") = false)
    by reflexivity.
  exact (conj H0 (conj H1
           (parseText_unterminated (lit "no terminator here") [] H0 H1))).
Defined.

(** ** The sentences of [deepParseText] *)

Lemma SFcompare_refl x : x <> S754_nan -> SFcompare x x = Some Eq.
Proof.
  destruct x as [s | s | | s m e]; cbn; intros H; try congruence.
  - now destruct s.
  - rewrite Z.compare_refl, Pos.compare_cont_refl. now destruct s.
Qed.

Lemma is_nan_spec x : PrimFloat.is_nan x = true -> Prim2SF x = S754_nan.
Proof.
  unfold PrimFloat.is_nan. rewrite eqb_spec. unfold SFeqb. intros H.
  destruct (Prim2SF x) eqn:E; try reflexivity;
    rewrite SFcompare_refl in H by discriminate; discriminate H.
Qed.

(** NaN is neither above nor below any number. *)
Lemma leb_nan x y :
  PrimFloat.is_nan x = true -> (x <=? y)%float = false /\ (y <=? x)%float = false.
Proof.
  intros H. apply is_nan_spec in H. rewrite !leb_spec, H. unfold SFleb.
  split; [reflexivity|]. now destruct (Prim2SF y).
Qed.

(** A sequence of two grade levels or more with a NaN among them is not
    non-increasing, however it is arranged. *)
Lemma non_increasing_nan grades x :
  In x grades -> PrimFloat.is_nan x = true -> 2 <= length grades ->
  non_increasing grades = false.
Proof.
  induction grades as [|a rest IH]; intros Hin Hx Hl; [destruct Hin|].
  destruct rest as [|b rest']; [cbn in Hl; lia|].
  change (non_increasing (a :: b :: rest'))
    with ((b <=? a)%float && non_increasing (b :: rest')).
  destruct Hin as [-> | Hin].
  - now rewrite (proj2 (leb_nan x b Hx)).
  - destruct rest' as [|c rest''].
    + destruct Hin as [-> | []]. now rewrite (proj1 (leb_nan x a Hx)).
    + rewrite IH; [apply andb_false_r | exact Hin | exact Hx | cbn; lia].
Qed.

(** [sort] rearranges and neither adds nor drops an element. *)
Lemma sort_insert_Permutation {A} (comparefn : A -> A -> float) x l :
  Permutation (sort_insert comparefn x l) (x :: l).
Proof.
  induction l as [|y rest IH]; cbn; [reflexivity|].
  destruct (0 <? comparefn x y)%float; [|reflexivity].
  rewrite IH. apply perm_swap.
Qed.

Lemma sort_Permutation {A} (comparefn : A -> A -> float) l :
  Permutation (sort comparefn l) l.
Proof.
  induction l as [|x rest IH]; cbn; [reflexivity|].
  rewrite sort_insert_Permutation. now constructor.
Qed.

(** The loop of [deepParseText] parses every sentence: on strings
    [parseText] does not throw, and the handler is never entered. *)
Lemma deepParseText_each_string todo :
  forall i acc c,
  exists rs c',
    deepParseText_each todo i acc c = (Normal (acc ++ rs), c')
    /\ Forall2 parsed_from todo rs.
Proof.
  induction todo as [|value rest IH]; intros i acc c.
  - exists [], c. cbn. rewrite app_nil_r. split; [reflexivity | constructor].
  - cbn [deepParseText_each]. unfold bind at 1. unfold try_catch, bind at 1.
    destruct (parseText_string value c) as (r & c1 & Hr & Hp). rewrite Hr.
    unfold ret at 1.
    destruct (IH (S i) (acc ++ [r]) c1) as (rs & c' & E & F). rewrite E.
    exists (r :: rs), c'. rewrite <- app_assoc. split; [reflexivity|].
    now constructor.
Qed.

(** [deepParseText] returns on every string, with one result for each
    sentence of the passage. *)
Lemma deepParseText_string text c0 :
  exists d c rs,
    deepParseText (VString text) c0 = (Normal d, c)
    /\ parsed_from text (result d)
    /\ Forall2 parsed_from (sentences (result d)) rs
    /\ parsedSentences d = sort sortFleschKincaidGradeLevelDescending rs.
Proof.
  unfold deepParseText. unfold bind at 1.
  destruct (parseText_string text c0) as (r & c1 & Hr & Hp). rewrite Hr.
  unfold bind at 1.
  destruct (deepParseText_each_string (sentences r) 0 [] c1)
    as (rs & c2 & E & F).
  rewrite E. cbn [app]. unfold ret.
  eexists. exists c2, rs. split; [reflexivity|]. cbn. auto.
Qed.

Lemma add_nan_r x : (x + nan)%float = nan.
Proof.
  apply Prim2SF_inj. rewrite add_spec.
  change (Prim2SF nan) with S754_nan. unfold SF64add, SFadd.
  now destruct (Prim2SF x).
Qed.

(** The grade level of a passage without words is NaN. *)
Lemma grade_level_no_word text r :
  parsed_from text r -> words r = [] ->
  PrimFloat.is_nan (fleschKincaidGradeLevel r) = true.
Proof.
  intros (_ & _ & _ & _ & Hnw & Hsy & Hnsy & _ & _ & _ & _ & Haspw & _ & _
          & _ & Hfk & _) Hw.
  rewrite Hw in Hnw, Hsy. cbn in Hnw, Hsy. rewrite Hsy in Hnsy.
  rewrite Hfk, Haspw, Hnw, Hnsy.
  change (11.8 * (number_of_nat (arrayAdd []) / number_of_nat 0))%float
    with nan.
  now rewrite add_nan_r.
Qed.

(** The input of C3 is one of many: whenever a passage has two sentences
    or more and one of them has no word, [parsedSentences] is not
    non-increasing in the grade level. *)
Lemma deepParseText_wordless_sentence text c0 :
  exists d c,
    deepParseText (VString text) c0 = (Normal d, c)
    /\ (2 <= length (sentences (result d)) ->
        (exists s, In s (sentences (result d))
                   /\ getWords (VString s) = Normal []) ->
        non_increasing (grade_levels (parsedSentences d)) = false).
Proof.
  destruct (deepParseText_string text c0) as (d & c & rs & Hd & _ & F & Hs).
  exists d, c. split; [exact Hd|]. intros Hl (s & Hin & Hw).
  assert (Hr : exists r, In r rs /\ parsed_from s r).
  { clear - F Hin. induction F as [|s' r' ss rs' H F IH]; [destruct Hin|].
    destruct Hin as [-> | Hin].
    - exists r'. cbn. auto.
    - destruct (IH Hin) as (r & ? & ?). exists r. cbn. auto. }
  destruct Hr as (r & Hr & Hp).
  assert (Hnan : PrimFloat.is_nan (fleschKincaidGradeLevel r) = true).
  { apply (grade_level_no_word s r Hp).
    destruct Hp as (_ & _ & _ & Hws & _). rewrite Hw in Hws. now injection Hws. }
  apply (non_increasing_nan _ (fleschKincaidGradeLevel r)).
  - unfold grade_levels. apply in_map. rewrite Hs.
    apply (Permutation_in _ (Permutation_sym (sort_Permutation _ rs))), Hr.
  - exact Hnan.
  - unfold grade_levels. rewrite length_map, Hs.
    rewrite (Permutation_length (sort_Permutation _ rs)).
    rewrite <- (Forall2_length F). exact Hl.
Qed.

(** C3: in "a. 1. b c d." the sentence " 1." has no word and its grade
    level is NaN; every comparison with it gives NaN, no sentence moves,
    and [parsedSentences] keeps "a." with the grade level -3.4 in front of
    " b c d." with the grade level -2.62.  No arrangement of the three
    results is non-increasing in the grade level. *)
Theorem deepParseText_numbered_unsorted :
  exists d c,
    deepParseText (VString numbered) [] = (Normal d, c)
    /\ map source (parsedSentences d)
       = [VString (lit "a."); VString (lit " 1."); VString (lit " b c d.")]
    /\ grade_levels (parsedSentences d)
       = [(-3.3999999999999986)%float; nan; (-2.6199999999999992)%float]
    /\ (-3.3999999999999986 <? -2.6199999999999992)%float = true
    /\ non_increasing (grade_levels (parsedSentences d)) = false
    /\ forall arranged,
         Permutation arranged (parsedSentences d) ->
         non_increasing (grade_levels arranged) = false.
Proof.
  eexists. eexists. split; [vm_compute; reflexivity|].
  split; [reflexivity|]. split; [reflexivity|]. split; [reflexivity|].
  split; [reflexivity|].
  intros arranged Hp. apply (non_increasing_nan _ nan).
  - unfold grade_levels. apply (Permutation_in _ (Permutation_map _ (Permutation_sym Hp))).
    cbn. auto.
  - reflexivity.
  - unfold grade_levels. rewrite length_map, (Permutation_length Hp). cbn. lia.
Qed.

(** * Further properties *)

(** ** What [trimNonLetters] removes *)

Lemma replace_leading_split p s :
  exists pre, s = pre ++ replace_leading p s /\ forallb p pre = true.
Proof.
  induction s as [|c t IH]; [now exists []|]. cbn [replace_leading].
  destruct (p c) eqn:Hc.
  - destruct IH as (pre & E & H). exists (c :: pre). cbn. rewrite Hc, H.
    split; [now f_equal | reflexivity].
  - now exists [].
Qed.

Lemma replace_trailing_split p s :
  exists post, s = replace_trailing p s ++ post /\ forallb p post = true.
Proof.
  induction s as [|c t IH]; [now exists []|]. rewrite replace_trailing_cons.
  destruct IH as (post & E & H).
  destruct (replace_trailing p t) as [|d t'] eqn:Et.
  - destruct (p c) eqn:Hc.
    + exists (c :: post). cbn in *. rewrite Hc, H. split; [now f_equal | reflexivity].
    + exists post. cbn in *. split; [now f_equal | exact H].
  - exists post. split; [|exact H]. cbn in *. now f_equal.
Qed.

Lemma forallb_non_letter s : forallb non_letter s = true -> has_letter s = false.
Proof.
  unfold has_letter, non_letter. induction s as [|c t IH]; cbn; [reflexivity|].
  intros H. apply andb_true_iff in H as [Hc Ht].
  apply negb_true_iff in Hc. now rewrite Hc, IH.
Qed.

Lemma has_letter_app a b : has_letter (a ++ b) = has_letter a || has_letter b.
Proof. apply existsb_app. Qed.

Lemma has_letter_replace_first s :
  has_letter (replace_first is_lf SP s) = has_letter s.
Proof.
  unfold has_letter. induction s as [|c t IH]; [reflexivity|].
  cbn [replace_first]. destruct (is_lf c) eqn:Hc; cbn [existsb].
  - now rewrite (lf_not_letter c Hc).
  - now rewrite IH.
Qed.

Lemma ends_with_letter_last s d :
  s <> [] -> ends_with_letter s -> is_letter (last s d) = true.
Proof.
  induction s as [|c t IH]; [congruence|]. intros _ H.
  apply ends_with_letter_cons in H as [[-> Hc] | [Hne Ht]]; [exact Hc|].
  destruct t as [|c' t']; [congruence|].
  change (last (c :: c' :: t') d) with (last (c' :: t') d). now apply IH.
Qed.

Lemma trimNonLetters_split s :
  exists head tail,
    replace_first is_lf SP s = head ++ trimNonLetters s ++ tail
    /\ has_letter head = false /\ has_letter tail = false.
Proof.
  unfold trimNonLetters.
  destruct (replace_leading_split non_letter (replace_first is_lf SP s))
    as (head & E1 & H1).
  destruct (replace_trailing_split non_letter
              (replace_leading non_letter (replace_first is_lf SP s)))
    as (tail & E2 & H2).
  exists head, tail. split; [now rewrite <- E2|].
  split; now apply forallb_non_letter.
Qed.

Lemma has_letter_trimNonLetters s :
  has_letter (trimNonLetters s) = has_letter s.
Proof.
  destruct (trimNonLetters_split s) as (head & tail & E & Hh & Ht).
  rewrite <- (has_letter_replace_first s), E, !has_letter_app, Hh, Ht.
  now rewrite orb_false_r.
Qed.

(** [trimNonLetters] takes a string apart into a head without letters,
    the result and a tail without letters, once the first line feed is a
    space.  The result is empty, or it starts with a letter and ends with
    one; it is empty exactly when the string has no letter. *)
Theorem trimNonLetters_removes_the_ends :
  forall s,
    (exists head tail,
       replace_first is_lf SP s = head ++ trimNonLetters s ++ tail
       /\ has_letter head = false /\ has_letter tail = false)
    /\ (trimNonLetters s = [] <-> has_letter s = false)
    /\ (forall c rest,
          trimNonLetters s = c :: rest ->
          is_letter c = true /\ is_letter (last (c :: rest) c) = true).
Proof.
  intros s. split; [apply trimNonLetters_split|]. split.
  - rewrite <- has_letter_trimNonLetters. split.
    + now intros ->.
    + intros H. pose proof (trimNonLetters_starts s) as Hs.
      destruct (trimNonLetters s) as [|c rest]; [reflexivity|].
      cbn in Hs. unfold has_letter in H. cbn in H. now rewrite Hs in H.
  - intros c rest E. split.
    + pose proof (trimNonLetters_starts s) as Hs. now rewrite E in Hs.
    + rewrite <- E. apply ends_with_letter_last; [congruence|].
      apply trimNonLetters_ends.
Qed.

(** ** The array that [trimNonLettersFromArray] hands back *)

Lemma array_string_at_nth ary key n s :
  array_string_at ary key = Some (n, s) -> nth_error ary n = Some s.
Proof.
  unfold array_string_at. destruct (array_index key) as [m|]; [|discriminate].
  destruct (_ <? _)%N; [|discriminate].
  destruct (nth_error ary (N.to_nat m)) eqn:E; [|discriminate].
  now intros [= <- <-].
Qed.

Lemma array_set_Forall2 {A} (R : A -> jsstring -> Prop) orig ary :
  Forall2 R orig ary ->
  forall n s v,
    nth_error ary n = Some s -> (forall a, R a s -> R a v) ->
    Forall2 R orig (array_set ary n v).
Proof.
  induction 1 as [|a b orig ary Hab H IH]; intros n s v Hn Hv.
  - constructor.
  - destruct n as [|n]; cbn in *.
    + injection Hn as ->. constructor; auto.
    + constructor; [assumption|]. eapply IH; eauto.
Qed.

(** Whatever relates an entry to its former self and survives one more
    [trimNonLetters] holds between the array before and after the loop. *)
Lemma trimNonLettersFromArray_each_Forall2 {A} (R : A -> jsstring -> Prop) orig :
  (forall a s, R a s -> R a (trimNonLetters s)) ->
  forall todo k ary,
    Forall2 R orig ary ->
    Forall2 R orig (trimNonLettersFromArray_each todo k ary).
Proof.
  intros HR. induction todo as [|todo IH]; intros k ary H; [exact H|].
  cbn [trimNonLettersFromArray_each].
  destruct (nth_error ary k) as [i|]; [|exact H].
  apply IH. destruct (array_string_at ary i) as [[n s]|] eqn:E; [|exact H].
  apply (array_set_Forall2 R orig ary H n s).
  - now apply array_string_at_nth in E.
  - intros a. apply HR.
Qed.

Lemma Forall2_same {A} (R : A -> A -> Prop) l :
  (forall a, R a a) -> Forall2 R l l.
Proof. intros H. induction l; constructor; auto. Qed.

(** [trimNonLettersFromArray] keeps the length of the array; every entry
    is the former entry with [trimNonLetters] applied some number of
    times, none included, and has a letter exactly if the former entry has
    one. *)
Theorem trimNonLettersFromArray_entries :
  forall ary,
    length (trimNonLettersFromArray ary) = length ary
    /\ Forall2
         (fun before after =>
            (exists n, after = Nat.iter n trimNonLetters before)
            /\ has_letter after = has_letter before)
         ary (trimNonLettersFromArray ary).
Proof.
  intros ary.
  assert (H : Forall2
                (fun before after =>
                   (exists n, after = Nat.iter n trimNonLetters before)
                   /\ has_letter after = has_letter before)
                ary (trimNonLettersFromArray ary)).
  { apply trimNonLettersFromArray_each_Forall2.
    - intros a s [[n ->] Hl]. split.
      + now exists (S n).
      + now rewrite has_letter_trimNonLetters.
    - apply Forall2_same. intros a. split; [now exists 0 | reflexivity]. }
  split; [|exact H]. symmetry. exact (Forall2_length H).
Qed.

(** ** [findFirstEmptyWord] and [removeEmptyWords] *)

(** [findFirstEmptyWord] returns -1 when every entry has a letter, and
    otherwise the index of the first entry without one. *)
Theorem findFirstEmptyWord_first :
  forall ary,
    (findFirstEmptyWord ary = (-1)%Z /\ forallb has_letter ary = true)
    \/ (exists i w,
          findFirstEmptyWord ary = Z.of_nat i
          /\ nth_error ary i = Some w /\ has_letter w = false
          /\ forallb has_letter (firstn i ary) = true).
Proof.
  intros ary. unfold findFirstEmptyWord.
  destruct (first_empty_word ary) as [H | (l1 & w & l2 & -> & H1 & Hw)].
  - left. split; [now apply findFirstEmptyWord_from_none | exact H].
  - right. exists (length l1), w.
    rewrite findFirstEmptyWord_from_some by assumption.
    split; [lia|]. split; [|split; [exact Hw|]].
    + rewrite nth_error_app2 by lia. now rewrite Nat.sub_diag.
    + rewrite firstn_app, Nat.sub_diag, firstn_all. cbn. now rewrite app_nil_r.
Qed.

(** The loop of [removeEmptyWords] comes to its end within as many rounds
    as the array has entries and one more, whatever the bound on the
    rounds is above that.  What it returns are the entries with a letter,
    in their order: nothing is left for [findFirstEmptyWord] to find, and
    a second call changes nothing. *)
Theorem removeEmptyWords_keeps_letters :
  forall ary,
    (forall fuel, length ary < fuel ->
       removeEmptyWords_loop fuel ary = removeEmptyWords ary)
    /\ removeEmptyWords ary = filter has_letter ary
    /\ findFirstEmptyWord (removeEmptyWords ary) = (-1)%Z
    /\ removeEmptyWords (removeEmptyWords ary) = removeEmptyWords ary.
Proof.
  intros ary. rewrite !removeEmptyWords_filter. repeat split.
  - intros fuel H. now apply removeEmptyWords_loop_filter.
  - apply findFirstEmptyWord_from_none. apply forallb_forall.
    intros w Hw. now apply filter_In in Hw.
  - apply filter_all. apply forallb_forall.
    intros w Hw. now apply filter_In in Hw.
Qed.

(** ** The words of [getWords] *)

Lemma replace_runs_from_none p r s :
  p r = false ->
  forall inrun, Forall (fun c => p c = false) (replace_runs_from p r inrun s).
Proof.
  intros Hr. induction s as [|c t IH]; intros inrun; cbn; [constructor|].
  destruct (p c) eqn:Hc; [destruct inrun|]; auto.
Qed.

Lemma split_no_separator sep s :
  Forall (fun w => existsb sep w = false) (split sep s).
Proof.
  induction s as [|c t IH]; cbn; [repeat constructor|].
  destruct (sep c) eqn:Hc; [now constructor|].
  destruct (split sep t) as [|w ws]; [repeat constructor; cbn; now rewrite Hc|].
  inversion IH; subst. constructor; [|assumption]. cbn. now rewrite Hc.
Qed.

Lemma filter_Forall2 {A B} (R : A -> B -> Prop) f g l l' :
  Forall2 (fun a b => R a b /\ g b = f a) l l' ->
  Forall2 R (filter f l) (filter g l').
Proof.
  induction 1 as [|a b l l' [Hab E] H IH]; cbn; [constructor|].
  rewrite E. destruct (f a); [constructor|]; auto.
Qed.

(** The tokens of a text: the text split at its spaces, once every run of
    line feeds is a space. *)
Lemma tokens_without_space_and_lf text :
  Forall (fun w => existsb is_space w = false /\ existsb is_lf w = false)
    (split is_space (replace_runs is_lf SP text)).
Proof.
  pose proof (split_no_separator is_space (replace_runs is_lf SP text)) as H1.
  pose proof (split_Forall (fun c => is_lf c = false) is_space
                (replace_runs is_lf SP text)
                (replace_runs_from_none is_lf SP text eq_refl false)) as H2.
  rewrite Forall_forall in *. intros w Hw. split; [now apply H1|].
  apply existsb_false_Forall. now apply H2.
Qed.

Lemma trimmed_token_relation text :
  Forall2
    (fun token w =>
       (existsb is_space token = false /\ existsb is_lf token = false
        /\ (w = token \/ w = trimNonLetters token))
       /\ has_letter w = has_letter token)
    (split is_space (replace_runs is_lf SP text))
    (trimNonLettersFromArray (split is_space (replace_runs is_lf SP text))).
Proof.
  apply trimNonLettersFromArray_each_Forall2.
  - intros a s [(Hs & Hl & Hw) E]. split.
    + split; [exact Hs|]. split; [exact Hl|]. right.
      destruct Hw as [-> | ->]; [reflexivity|].
      apply trimNonLetters_idempotent_iff.
      destruct (existsb is_lf (trimNonLetters a)) eqn:El; [|reflexivity].
      unfold trimNonLetters in El.
      apply existsb_replace_trailing, existsb_replace_leading in El.
      rewrite replace_first_absent in El by exact Hl. congruence.
    + now rewrite has_letter_trimNonLetters.
  - pose proof (tokens_without_space_and_lf text) as H.
    induction H as [|w ws [Hs Hl] H IH]; constructor; auto.
Qed.

(** The words of a text are its tokens with a letter, in their order, each
    one as the split left it or trimmed: there are as many words as tokens
    with a letter, whether a token gets trimmed or not. *)
Theorem getWords_are_tokens :
  forall text,
  exists words,
    getWords (VString text) = Normal words
    /\ Forall2 (fun token w => w = token \/ w = trimNonLetters token)
         (filter has_letter (split is_space (replace_runs is_lf SP text)))
         words
    /\ length words
       = length (filter has_letter
                   (split is_space (replace_runs is_lf SP text))).
Proof.
  intros text. rewrite getWords_string.
  assert (H : Forall2 (fun token w => w = token \/ w = trimNonLetters token)
                (filter has_letter (split is_space (replace_runs is_lf SP text)))
                (filter has_letter
                   (trimNonLettersFromArray
                      (split is_space (replace_runs is_lf SP text))))).
  { apply filter_Forall2. eapply Forall2_impl; [|apply trimmed_token_relation].
    cbn. intros a b [(_ & _ & H) E]. now split. }
  destruct text as [|c t].
  - exists []. cbn. repeat split. constructor.
  - cbn [length Nat.eqb]. eexists. split; [reflexivity|].
    split; [exact H|]. symmetry. exact (Forall2_length H).
Qed.

(** Every word of a text has a letter, so it is not empty, and holds
    neither a space nor a line feed. *)
Theorem getWords_words :
  forall text,
  exists words,
    getWords (VString text) = Normal words
    /\ Forall
         (fun w =>
            has_letter w = true /\ w <> []
            /\ existsb is_space w = false /\ existsb is_lf w = false)
         words.
Proof.
  intros text. rewrite getWords_string. eexists. split; [reflexivity|].
  destruct (length text =? 0); [constructor|].
  apply Forall_forall. intros w Hw. apply filter_In in Hw as [Hin Hl].
  split; [exact Hl|]. split; [intros ->; discriminate Hl|].
  pose proof (trimmed_token_relation text) as H.
  assert (Hw : exists token,
             (existsb is_space token = false /\ existsb is_lf token = false
              /\ (w = token \/ w = trimNonLetters token))).
  { clear Hl. induction H as [|a b l l' [Hab _] H IH]; [destruct Hin|].
    destruct Hin as [-> | Hin]; [now exists a | now apply IH]. }
  destruct Hw as (token & Hs & Hlf & [-> | ->]); [now split|].
  unfold trimNonLetters. rewrite replace_first_absent by exact Hlf. split.
  - destruct (existsb is_space (replace_trailing _ _)) eqn:E; [|reflexivity].
    apply existsb_replace_trailing, existsb_replace_leading in E. congruence.
  - destruct (existsb is_lf (replace_trailing _ _)) eqn:E; [|reflexivity].
    apply existsb_replace_trailing, existsb_replace_leading in E. congruence.
Qed.

(** ** The sentences of [getSentences] *)

Lemma is_rparen_eq d : is_rparen d = true -> d = ")"%char.
Proof.
  unfold is_rparen, code. intros H. apply N.eqb_eq in H.
  rewrite <- (ascii_N_embedding d), H. reflexivity.
Qed.

Lemma existsb_rev_false (p : ascii -> bool) l :
  existsb p l = false -> existsb p (rev l) = false.
Proof.
  induction l as [|c t IH]; cbn; [auto|]. intros H.
  apply orb_false_iff in H as [Hc Ht].
  rewrite existsb_app, IH by assumption. cbn. now rewrite Hc.
Qed.

Lemma rev_not_nil {A} (l : list A) : l <> [] -> rev l <> [].
Proof.
  destruct l as [|a l]; [congruence|]. intros _ E.
  apply (f_equal (@length A)) in E. rewrite length_rev in E. discriminate E.
Qed.

(** The scan behind a closing parenthesis goes on two characters further,
    so the properties of [scan_sentences] go by the length of the text. *)
Lemma scan_sentences_Forall (P : jsstring -> jsstring -> Prop)
  (Q : jsstring -> Prop) :
  (forall cur c t,
     cur <> [] -> is_terminator c = true ->
     P cur (c :: t) -> Q (rev cur ++ [c]) /\ Q (rev cur ++ [c; ")"%char])) ->
  (forall cur c t, is_terminator c = false -> P cur (c :: t) -> P (c :: cur) t) ->
  (forall cur c t, P cur (c :: t) -> P [] t) ->
  forall n s cur, length s <= n -> P cur s -> Forall Q (scan_sentences cur s).
Proof.
  intros Hemit Hpush Hreset.
  induction n as [|n IH]; intros s cur Hn HP.
  - destruct s; [constructor | cbn in Hn; lia].
  - destruct s as [|c t]; [constructor|]. cbn in Hn.
    cbn [scan_sentences]. destruct (is_terminator c) eqn:Hc.
    + assert (Pt : P [] t) by (eapply Hreset; eauto).
      destruct cur as [|a cur']; [apply IH; [lia | exact Pt]|].
      destruct (Hemit (a :: cur') c t ltac:(discriminate) Hc HP)
        as [Q1 Q2].
      destruct t as [|d t'].
      * constructor; [exact Q1 | constructor].
      * destruct (is_rparen d) eqn:Hd.
        -- apply is_rparen_eq in Hd. subst d. constructor; [exact Q2|].
           apply IH; [cbn in Hn; lia|]. eapply Hreset; eauto.
        -- constructor; [exact Q1|]. apply IH; [lia | exact Pt].
    + apply IH; [lia|]. now apply Hpush.
Qed.



Lemma scan_final_fragment s :
  forall cur f,
    existsb is_terminator cur = false -> scan_final cur s = Some f ->
    unterminated_fragment f /\ exists pre, rev cur ++ s = pre ++ f.
Proof.
  induction s as [|c t IH]; intros cur f Hcur H; cbn [scan_final] in H.
  - destruct cur as [|a cur']; [discriminate|]. injection H as <-.
    split; [split|].
    + apply (rev_not_nil (a :: cur')). discriminate.
    + now apply (existsb_rev_false _ (a :: cur')).
    + exists []. now rewrite app_nil_r.
  - destruct (is_terminator c) eqn:Hc.
    + destruct (IH [] f eq_refl H) as [Hf [pre E]]. split; [exact Hf|].
      exists (rev cur ++ c :: pre). cbn in E. rewrite E.
      now rewrite <- app_assoc.
    + destruct (IH (c :: cur) f) as [Hf [pre E]];
        [cbn; now rewrite Hc | exact H |].
      split; [exact Hf|]. exists pre. rewrite <- E. cbn [rev].
      now rewrite <- app_assoc.
Qed.



Lemma filter_terminator_replace_runs s :
  forall inrun,
    filter is_terminator (replace_runs_from is_lf SP inrun s)
    = filter is_terminator s.
Proof.
  induction s as [|c t IH]; intros inrun; [reflexivity|].
  cbn [replace_runs_from]. destruct (is_lf c) eqn:Hc.
  - assert (Ht : is_terminator c = false).
    { revert Hc. unfold is_lf, is_terminator.
      destruct (N.eqb_spec (code c) 10) as [->|]; [reflexivity | discriminate]. }
    cbn [filter]. rewrite Ht. destruct inrun; [apply IH|].
    cbn [filter]. change (is_terminator SP) with false. apply IH.
  - cbn [filter]. now rewrite IH.
Qed.

Lemma scan_sentences_count n :
  forall s cur,
    length s <= n ->
    length (scan_sentences cur s) <= count_class is_terminator s.
Proof.
  unfold count_class.
  induction n as [|n IH]; intros s cur Hn.
  - destruct s; [cbn; lia | cbn in Hn; lia].
  - destruct s as [|c t]; [cbn; lia|]. cbn in Hn.
    cbn [scan_sentences filter]. destruct (is_terminator c) eqn:Hc.
    + cbn [length]. destruct cur as [|a cur'].
      * specialize (IH t [] ltac:(lia)). lia.
      * destruct t as [|d t']; [cbn; lia|].
        destruct (is_rparen d) eqn:Hd.
        -- cbn [length filter]. cbn in Hn.
           specialize (IH t' [] ltac:(lia)).
           destruct (is_terminator d); cbn [length]; lia.
        -- cbn [length]. specialize (IH (d :: t') [] ltac:(lia)). lia.
    + apply IH. lia.
Qed.

Lemma scan_only_terminators s :
  forallb is_terminator s = true ->
  scan_sentences [] s = [] /\ scan_final [] s = None.
Proof.
  induction s as [|c t IH]; cbn; [auto|]. intros H.
  apply andb_true_iff in H as [-> H]. now apply IH.
Qed.

Lemma only_terminators_no_lf s :
  Forall (fun c => is_terminator c = true) (replace_runs is_lf SP s) ->
  forallb is_terminator s = true.
Proof.
  unfold replace_runs. induction s as [|c t IH]; [reflexivity|].
  cbn [replace_runs_from forallb]. destruct (is_lf c).
  - inversion 1; subst. discriminate.
  - inversion 1; subst. now rewrite H2, IH.
Qed.

(** A text has no sentence exactly when it is made of '.', '!' and '?'
    only, the empty text included; and it never has more sentences than
    terminators and one. *)
Theorem getSentences_count :
  forall text,
  exists sentences,
    getSentences (VString text) = Normal sentences
    /\ (sentences = [] <-> forallb is_terminator text = true)
    /\ length sentences <= count_class is_terminator text + 1.
Proof.
  intros text. rewrite getSentences_string. eexists. split; [reflexivity|].
  destruct text as [|c t]; [cbn; split; [tauto | lia]|].
  cbn [length Nat.eqb]. cbv zeta.
  set (text := replace_runs is_lf SP (c :: t)). split.
  - split.
    + intros E. apply app_eq_nil in E as [Hs Hf].
      destruct (scan_final [] text) eqn:Ef; [discriminate|].
      destruct (scan_nothing _ _ Hs Ef) as [_ Ht].
      now apply only_terminators_no_lf.
    + intros H.
      assert (Hlf : existsb is_lf (c :: t) = false).
      { apply existsb_false_Forall. apply Forall_forall. intros x Hx.
        rewrite forallb_forall in H. specialize (H x Hx).
        revert H. unfold is_lf, is_terminator.
        destruct (N.eqb_spec (code x) 10) as [->|]; [discriminate | reflexivity]. }
      unfold text. rewrite replace_runs_absent by exact Hlf.
      destruct (scan_only_terminators _ H) as [-> ->]. reflexivity.
  - rewrite length_app.
    pose proof (scan_sentences_count (length text) text [] (Nat.le_refl _)) as Hc.
    unfold count_class in *. unfold text in Hc at 2.
    unfold replace_runs in Hc. rewrite filter_terminator_replace_runs in Hc.
    destruct (scan_final [] text); cbn [length]; lia.
Qed.

(** ** The outcome of [getNumSyllablesInWord] *)

Lemma getNumSyllablesInWord_whitespace w :
  w <> [] -> existsb is_whitespace w = true ->
  getNumSyllablesInWord (VString w) = Throw (Thrown "Contains whitespace.").
Proof.
  intros Hne Hw. unfold getNumSyllablesInWord.
  destruct w as [|c t]; [congruence|]. cbn [length Nat.eqb].
  now rewrite search_absent_iff, Hw.
Qed.

(** The guards of the estimator in their order: a value that is no string
    is a [TypeError], the empty string throws "Empty string.", a string
    with white space throws "Contains whitespace.", and every other string
    has an estimate, 1 up to three characters and the number of vowel runs
    of the counted part above. *)
Theorem getNumSyllablesInWord_outcome :
  forall word, getNumSyllablesInWord word = estimate word.
Proof.
  intros [| | | |w]; try reflexivity.
  destruct w as [|c t]; [reflexivity|]. unfold estimate.
  destruct (existsb is_whitespace (c :: t)) eqn:Hw.
  - now apply getNumSyllablesInWord_whitespace.
  - now apply getNumSyllablesInWord_returns.
Qed.

Lemma is_whitespace_lower c : is_whitespace (lower c) = is_whitespace c.
Proof. destruct c as [[] [] [] [] [] [] [] []]; reflexivity. Qed.

Lemma existsb_whitespace_toLowerCase w :
  existsb is_whitespace (toLowerCase w) = existsb is_whitespace w.
Proof.
  unfold toLowerCase. induction w as [|c t IH]; [reflexivity|].
  cbn [map existsb]. now rewrite is_whitespace_lower, IH.
Qed.

(** Two words of the same length that differ in the case of their
    letters only have the same outcome: the same estimate or the same
    error.  The guards look at the word as it is given, at its length and
    at its white space, and the count at its lower-case form alone. *)
Theorem getNumSyllablesInWord_ignores_case :
  forall w1 w2,
    toLowerCase w1 = toLowerCase w2 -> length w1 = length w2 ->
    getNumSyllablesInWord (VString w1) = getNumSyllablesInWord (VString w2).
Proof.
  intros w1 w2 E Hlen.
  assert (Hws : existsb is_whitespace w1 = existsb is_whitespace w2).
  { rewrite <- (existsb_whitespace_toLowerCase w1),
      <- (existsb_whitespace_toLowerCase w2). now rewrite E. }
  destruct w1 as [|c1 t1], w2 as [|c2 t2]; try discriminate Hlen;
    [reflexivity|].
  destruct (existsb is_whitespace (c1 :: t1)) eqn:H1.
  - rewrite !getNumSyllablesInWord_whitespace; congruence.
  - rewrite !getNumSyllablesInWord_returns; try congruence.
    unfold syllable_count. now rewrite Hlen, E.
Qed.

Lemma getNumSyllablesInWord_ignores_case_hoped :
  toLowerCase (lit "Hoped") = toLowerCase (lit "hOPED")
  /\ length (lit "Hoped") = length (lit "hOPED")
  /\ getNumSyllablesInWord (VString (lit "Hoped"))
     = getNumSyllablesInWord (VString (lit "hOPED")).
Proof.
  assert (H : toLowerCase (lit "Hoped") = toLowerCase (lit "hOPED"))
    by reflexivity.
  assert (L : length (lit "Hoped") = length (lit "hOPED")) by reflexivity.
  exact (conj H (conj L (getNumSyllablesInWord_ignores_case _ _ H L))).
Defined.

Lemma vowel_runs_from_bound s :
  forall prev,
    2 * vowel_runs_from prev s <= length s + (if prev then 0 else 1).
Proof.
  induction s as [|c t IH]; intros prev; [destruct prev; cbn; lia|].
  cbn [vowel_runs_from length]. destruct (is_vowel c).
  - specialize (IH true). cbv iota in IH. destruct prev; cbv iota; lia.
  - specialize (IH false). cbv iota in IH. destruct prev; cbv iota; lia.
Qed.

Lemma counted_part_length s : length (counted_part s) <= length s.
Proof.
  unfold counted_part, without_final_suffix, drop_last.
  destruct (ends_with (lit "le") s); [lia|].
  destruct (ends_with (lit "es") s); [rewrite length_firstn; lia|].
  destruct (ends_with (lit "ed") s); [rewrite length_firstn; lia|].
  destruct (ends_with (lit "e") s); [rewrite length_firstn; lia | lia].
Qed.

(** Two vowel runs have a consonant between them, so the estimate of a
    word is at most half the length of its lower-case form, rounded up: a
    word whose lower-case form has fewer than five characters never
    counts as complex, which takes three syllables. *)
Theorem getNumSyllablesInWord_bound :
  forall w n,
    getNumSyllablesInWord (VString w) = Normal n ->
    2 * n <= length (toLowerCase w) + 1
    /\ (3 <= n -> 5 <= length (toLowerCase w)).
Proof.
  intros w n H.
  assert (Hb : 2 * n <= length (toLowerCase w) + 1).
  { destruct w as [|c t]; [discriminate H|].
    destruct (existsb is_whitespace (c :: t)) eqn:Hw.
    - rewrite getNumSyllablesInWord_whitespace in H by (congruence || exact Hw).
      discriminate H.
    - rewrite getNumSyllablesInWord_returns in H by (congruence || exact Hw).
      injection H as <-. unfold syllable_count.
      destruct (Nat.leb_spec (length (c :: t)) 3).
      + unfold toLowerCase. cbn [map length]. lia.
      + pose proof (vowel_runs_from_bound
                      (counted_part (toLowerCase (c :: t))) false) as H1.
        pose proof (counted_part_length (toLowerCase (c :: t))) as H2.
        unfold vowel_runs. cbv iota in H1. lia. }
  split; [exact Hb | lia].
Qed.

Lemma getNumSyllablesInWord_bound_little :
  getNumSyllablesInWord (VString (lit "Little")) = Normal 2
  /\ 2 * 2 <= length (toLowerCase (lit "Little")) + 1
  /\ (3 <= 2 -> 5 <= length (toLowerCase (lit "Little"))).
Proof.
  assert (H : getNumSyllablesInWord (VString (lit "Little")) = Normal 2)
    by reflexivity.
  exact (conj H (getNumSyllablesInWord_bound _ _ H)).
Defined.

(** ** The complex words *)

Lemma getComplexWordPositions_each_positions todo :
  forall i result,
    getComplexWordPositions_each todo i result
    = result ++ positions_from i todo.
Proof.
  induction todo as [|v rest IH]; intros i result;
    cbn [getComplexWordPositions_each positions_from].
  - now rewrite app_nil_r.
  - rewrite IH. destruct (3 <=? v); [|reflexivity].
    now rewrite <- app_assoc.
Qed.

Lemma getComplexWordPositions_positions l :
  getComplexWordPositions l = positions_from 0 l.
Proof. apply getComplexWordPositions_each_positions. Qed.

Lemma positions_from_In l :
  forall i j,
    In j (positions_from i l)
    <-> i <= j /\ exists v, nth_error l (j - i) = Some v /\ 3 <= v.
Proof.
  induction l as [|v rest IH]; intros i j; cbn [positions_from].
  - split; [intros [] | intros (_ & w & H & _)]. now destruct (j - i).
  - assert (Hrest : In j (positions_from (S i) rest)
                    <-> i < j /\ exists w, nth_error (v :: rest) (j - i) = Some w
                                            /\ 3 <= w).
    { rewrite IH. split.
      - intros (Hij & w & Hn & Hw). split; [lia|]. exists w. split; [|exact Hw].
        replace (j - i) with (S (j - S i)) by lia. exact Hn.
      - intros (Hij & w & Hn & Hw). split; [lia|]. exists w. split; [|exact Hw].
        replace (j - i) with (S (j - S i)) in Hn by lia. exact Hn. }
    destruct (Nat.leb_spec 3 v) as [Hv | Hv].
    + cbn [In]. rewrite Hrest. split.
      * intros [<- | (Hij & H)]; [|split; [lia | exact H]].
        split; [lia|]. exists v. now rewrite Nat.sub_diag.
      * intros (Hij & w & Hn & Hw).
        destruct (Nat.eq_dec i j) as [-> | Hne]; [now left|].
        right. split; [lia|]. now exists w.
    + rewrite Hrest. split.
      * intros (Hij & H). split; [lia | exact H].
      * intros (Hij & w & Hn & Hw).
        destruct (Nat.eq_dec i j) as [-> | Hne].
        -- rewrite Nat.sub_diag in Hn. cbn in Hn. injection Hn as ->. lia.
        -- split; [lia|]. now exists w.
Qed.

Lemma positions_from_sorted l :
  forall i, StronglySorted lt (positions_from i l).
Proof.
  induction l as [|v rest IH]; intros i; cbn [positions_from]; [constructor|].
  destruct (3 <=? v); [|apply IH]. constructor; [apply IH|].
  apply Forall_forall. intros j Hj. apply positions_from_In in Hj. lia.
Qed.

(** [getComplexWordPositions] returns the indices of the entries that are
    3 or more, all of them and no other, in increasing order. *)
Theorem getComplexWordPositions_indices :
  forall aryOfNumSyllables,
    (forall i,
       In i (getComplexWordPositions aryOfNumSyllables)
       <-> exists v, nth_error aryOfNumSyllables i = Some v /\ 3 <= v)
    /\ StronglySorted lt (getComplexWordPositions aryOfNumSyllables).
Proof.
  intros l. rewrite getComplexWordPositions_positions. split.
  - intros i. rewrite positions_from_In, Nat.sub_0_r. split.
    + now intros [_ H].
    + intros H. split; [lia | exact H].
  - apply positions_from_sorted.
Qed.

Lemma getComplexWords_map aryOfWords positions :
  getComplexWords aryOfWords positions
  = map (fun value =>
           match nth_error aryOfWords value with
           | Some w => VString w
           | None => VUndefined
           end)
      positions.
Proof.
  unfold getComplexWords.
  assert (H : forall acc,
             fold_left
               (fun result value =>
                  result ++ [match nth_error aryOfWords value with
                             | Some w => VString w
                             | None => VUndefined
                             end])
               positions acc
             = acc ++ map (fun value =>
                             match nth_error aryOfWords value with
                             | Some w => VString w
                             | None => VUndefined
                             end) positions).
  { induction positions as [|p rest IH]; intros acc; cbn.
    - now rewrite app_nil_r.
    - rewrite IH. now rewrite <- app_assoc. }
  apply (H []).
Qed.

Lemma syllables_of_words_length ws :
  length (syllables_of_words ws) <= length ws.
Proof.
  induction ws as [|w ws IH]; [apply Nat.le_refl|].
  cbn [syllables_of_words flat_map]. fold (syllables_of_words ws).
  rewrite length_app. destruct (getNumSyllablesInWord (VString w)); cbn; lia.
Qed.

Lemma positions_from_sum l :
  forall i,
    3 * length (positions_from i l) <= list_sum l
    /\ length (positions_from i l) <= length l.
Proof.
  induction l as [|v rest IH]; intros i; cbn [positions_from]; [cbn; lia|].
  change (list_sum (v :: rest)) with (v + list_sum rest).
  specialize (IH (S i)).
  destruct (Nat.leb_spec 3 v); cbn [length]; lia.
Qed.

(** In the result of [parseText] every complex word is a word of the
    passage, the one at the position beside it, and never [undefined].
    Each of them stands for three syllables at least in [numSyllables],
    and there are no more of them than syllable counts and words. *)
Theorem parseText_complexWords :
  forall text c0,
  exists r c,
    parseText (VString text) c0 = (Normal r, c)
    /\ Forall2
         (fun position v =>
            exists w, nth_error (words r) position = Some w /\ v = VString w)
         (complexWordPositions r) (complexWords r)
    /\ length (complexWords r) = numComplexWords r
    /\ 3 * numComplexWords r <= numSyllables r
    /\ numComplexWords r <= length (syllables r)
    /\ length (syllables r) <= numWords r.
Proof.
  intros text c0.
  destruct (parseText_string text c0) as (r & c & Hr & Hp).
  exists r, c. split; [exact Hr|].
  destruct Hp as (_ & _ & _ & _ & Hnw & Hsy & Hnsy & Hcp & Hnc & Hcw & _).
  pose proof (syllables_of_words_length (words r)) as Hlen.
  rewrite <- Hsy in Hlen.
  rewrite Hcw, getComplexWords_map, Hnc, Hnsy, arrayAdd_sum, Hnw.
  rewrite length_map, Hcp, getComplexWordPositions_positions.
  destruct (positions_from_sum (syllables r) 0) as [H3 Hle].
  repeat split; try assumption.
  assert (Hin : forall p, In p (positions_from 0 (syllables r)) ->
                          p < length (words r)).
  { intros p Hp. apply positions_from_In in Hp as (_ & v & Hv & _).
    rewrite Nat.sub_0_r in Hv.
    assert (p < length (syllables r)) by (apply nth_error_Some; congruence).
    lia. }
  revert Hin. generalize (positions_from 0 (syllables r)) as ps.
  induction ps as [|p rest IH]; intros Hin; [constructor|].
  cbn [map]. constructor.
  - destruct (nth_error (words r) p) as [w|] eqn:E; [now exists w|].
    apply nth_error_None in E. specialize (Hin p (or_introl eq_refl)). lia.
  - apply IH. intros q Hq. apply Hin. now right.
Qed.

Lemma complex_words_aligned (f : jsstring -> nat) ws :
  forall pre,
    map (fun value =>
           match nth_error (pre ++ ws) value with
           | Some w => VString w
           | None => VUndefined
           end)
      (positions_from (length pre) (map f ws))
    = map VString (filter (fun w => 3 <=? f w) ws).
Proof.
  induction ws as [|w rest IH]; intros pre; [reflexivity|].
  cbn [map positions_from filter].
  specialize (IH (pre ++ [w])).
  rewrite <- app_assoc, length_app in IH. cbn [app length] in IH.
  rewrite Nat.add_1_r in IH.
  destruct (3 <=? f w); [|exact IH].
  cbn [map]. rewrite IH, nth_error_app2 by lia.
  now rewrite Nat.sub_diag.
Qed.

(** Where no word of the passage holds white space, [syllables] has the
    estimate of every word, and the complex words are the words with an
    estimate of three or more, in the order of the passage. *)
Theorem parseText_complexWords_aligned :
  forall text c0,
  exists r c,
    parseText (VString text) c0 = (Normal r, c)
    /\ (forallb no_whitespace (words r) = true ->
        syllables r = map syllable_count (words r)
        /\ complexWords r
           = map VString
               (filter (fun w => 3 <=? syllable_count w) (words r))).
Proof.
  intros text c0.
  destruct (parseText_string text c0) as (r & c & Hr & Hp).
  exists r, c. split; [exact Hr|]. intros Hall.
  destruct Hp as (_ & _ & _ & Hw & _ & Hsy & _ & Hcp & _ & Hcw & _).
  apply getWords_have_letters in Hw.
  assert (Hs : syllables r = map syllable_count (words r)).
  { rewrite Hsy, syllables_of_words_filter by exact Hw.
    now rewrite filter_all. }
  split; [exact Hs|].
  rewrite Hcw, getComplexWords_map, Hcp, getComplexWordPositions_positions, Hs.
  apply (complex_words_aligned syllable_count (words r) []).
Qed.

(** ** The white space that [getWords] leaves in a word *)

Lemma Forall2_Forall_r {A B} (R : A -> B -> Prop) (Q : A -> Prop)
  (S : B -> Prop) l l' :
  (forall a b, R a b -> Q a -> S b) ->
  Forall2 R l l' -> Forall Q l -> Forall S l'.
Proof.
  intros H. induction 1 as [|a b l l' Hab F IH]; intros HQ; [constructor|].
  inversion HQ; subst. constructor; eauto.
Qed.

Lemma existsb_whitespace_trimNonLetters token :
  existsb is_lf token = false -> existsb is_whitespace token = false ->
  existsb is_whitespace (trimNonLetters token) = false.
Proof.
  intros Hl Hw. destruct (trimNonLetters_split token) as (head & tail & E & _).
  rewrite replace_first_absent in E by exact Hl.
  rewrite E, !existsb_app in Hw.
  apply orb_false_iff in Hw as [_ Hw]. now apply orb_false_iff in Hw as [Hw _].
Qed.

(** Only white space that is neither a space nor a line feed gets into a
    word: a text without such characters has words without white space. *)
Lemma getWords_no_whitespace text ws :
  Forall (fun c => is_whitespace c = true ->
                   is_space c = true \/ is_lf c = true) text ->
  getWords (VString text) = Normal ws ->
  forallb no_whitespace ws = true.
Proof.
  intros Ht. rewrite getWords_string. intros [= <-].
  destruct (length text =? 0); [reflexivity|].
  apply forallb_forall. intros w Hw. apply filter_In in Hw as [Hw _].
  revert w Hw. apply Forall_forall.
  assert (Hc : Forall
                 (Forall (fun c => is_whitespace c = true ->
                                   is_space c = true \/ is_lf c = true))
                 (split is_space (replace_runs is_lf SP text))).
  { apply split_Forall, replace_runs_from_Forall; [|exact Ht].
    intros _. now left. }
  eapply Forall2_Forall_r; [|apply trimmed_token_relation | exact Hc].
  intros token w R Q. cbn beta.
  destruct R as [(Hs & Hl & Hw) _].
  assert (Hn : existsb is_whitespace token = false).
  { apply existsb_false_Forall. rewrite Forall_forall in Q |- *.
    intros c Hc'. destruct (is_whitespace c) eqn:E; [|reflexivity].
    apply existsb_false_Forall in Hs, Hl. rewrite Forall_forall in Hs, Hl.
    destruct (Q c Hc' E) as [H | H];
      [rewrite (Hs c Hc') in H | rewrite (Hl c Hc') in H]; discriminate H. }
  unfold no_whitespace. apply negb_true_iff.
  destruct Hw as [-> | ->]; [exact Hn|].
  now apply existsb_whitespace_trimNonLetters.
Qed.

(** So [words] and [syllables] match on every text whose white space is
    spaces and line feeds: each word has its estimate at its index. *)
Lemma parseText_matching_arrays text c0 :
  Forall (fun c => is_whitespace c = true ->
                   is_space c = true \/ is_lf c = true) text ->
  exists r c,
    parseText (VString text) c0 = (Normal r, c)
    /\ syllables r = map syllable_count (words r)
    /\ length (syllables r) = length (words r).
Proof.
  intros Ht.
  destruct (parseText_string text c0) as (r & c & Hr & Hp).
  exists r, c. split; [exact Hr|].
  destruct Hp as (_ & _ & _ & Hw & _ & Hs & _).
  pose proof (getWords_no_whitespace _ _ Ht Hw) as Hn.
  apply getWords_have_letters in Hw.
  assert (E : syllables r = map syllable_count (words r)).
  { rewrite Hs, syllables_of_words_filter by exact Hw. now rewrite filter_all. }
  split; [exact E|]. now rewrite E, length_map.
Qed.

(** ** What [parseText] writes to the console *)

Lemma getNumSyllablesPerWord_each_console aryOfWords todo :
  forall result c,
    snd (getNumSyllablesPerWord_each aryOfWords todo result c)
    = c ++ logged_words aryOfWords todo.
Proof.
  induction todo as [|w rest IH]; intros result c.
  - cbn. now rewrite app_nil_r.
  - cbn [getNumSyllablesPerWord_each logged_words flat_map].
    fold (logged_words aryOfWords rest).
    unfold bind, try_catch, lift, ret, log.
    destruct (getNumSyllablesInWord (VString w)) as [n|e]; rewrite IH.
    + reflexivity.
    + now rewrite <- !app_assoc.
Qed.

Lemma parseText_run text c0 :
  exists r,
    parseText (VString text) c0
    = (Normal r, c0 ++ logged_words (words r) (words r))
    /\ parsed_from text r.
Proof.
  destruct (parseText_string text c0) as (r & c & Hr & Hp).
  exists r. split; [|exact Hp]. rewrite Hr. f_equal.
  destruct Hp as (_ & _ & _ & Hw & _).
  revert Hr. unfold parseText, bind, lift.
  destruct (getSentences (VString text)) as [ss|]; [|discriminate].
  rewrite Hw.
  pose proof (getNumSyllablesPerWord_each_console (words r) (words r) [] c0)
    as Hc.
  fold (getNumSyllablesPerWord (words r)) in Hc.
  destruct (getNumSyllablesPerWord (words r) c0) as [[syl|e] c1];
    [|discriminate].
  cbn [snd] in Hc. unfold ret. now intros [= _ <-].
Qed.

Lemma logged_words_length aryOfWords ws :
  length (logged_words aryOfWords ws) + 3 * length (syllables_of_words ws)
  = 3 * length ws.
Proof.
  induction ws as [|w ws IH]; [reflexivity|].
  cbn [logged_words syllables_of_words flat_map].
  fold (logged_words aryOfWords ws) (syllables_of_words ws).
  rewrite !length_app.
  destruct (getNumSyllablesInWord (VString w)); cbn [length]; lia.
Qed.

Lemma logged_words_none aryOfWords ws :
  Forall (fun w => has_letter w = true) ws ->
  forallb no_whitespace ws = true -> logged_words aryOfWords ws = [].
Proof.
  induction 1 as [|w ws Hw Hws IH]; [reflexivity|]. cbn [forallb].
  intros H. apply andb_true_iff in H as [Hn H].
  cbn [logged_words flat_map]. fold (logged_words aryOfWords ws).
  rewrite IH by exact H. rewrite getNumSyllablesInWord_returns; [reflexivity | |].
  - intros ->. discriminate Hw.
  - unfold no_whitespace in Hn. now apply negb_true_iff in Hn.
Qed.

(** [parseText] leaves what is on the console in place and adds, word by
    word in the order of the passage, three entries for every word whose
    estimation throws: the notice, what was thrown and the word with the
    array of all words.  A passage whose words hold no white space adds
    nothing. *)
Theorem parseText_console :
  forall text c0,
  exists r c,
    parseText (VString text) c0 = (Normal r, c)
    /\ c = c0 ++ logged_words (words r) (words r)
    /\ length c = length c0 + 3 * (numWords r - length (syllables r))
    /\ (forallb no_whitespace (words r) = true -> c = c0).
Proof.
  intros text c0. destruct (parseText_run text c0) as (r & Hr & Hp).
  exists r, (c0 ++ logged_words (words r) (words r)).
  split; [exact Hr|]. split; [reflexivity|].
  destruct Hp as (_ & _ & _ & Hw & Hnw & Hsy & _). split.
  - pose proof (logged_words_length (words r) (words r)) as H.
    rewrite length_app, Hnw, Hsy. lia.
  - intros Hall. rewrite logged_words_none; [apply app_nil_r | | exact Hall].
    now apply getWords_have_letters in Hw.
Qed.

(** ** A value that is no string *)

(** [parseText] and [deepParseText] throw the [TypeError] of
    [getSentences] on a value that is no string, before anything is
    written to the console; [getWords] throws the same error. *)
Theorem parseText_not_a_string :
  forall v c0,
    (forall s, v <> VString s) ->
    getSentences v = Throw (TypeError "A string is required.")
    /\ getWords v = Throw (TypeError "A string is required.")
    /\ parseText v c0 = (Throw (TypeError "A string is required."), c0)
    /\ deepParseText v c0 = (Throw (TypeError "A string is required."), c0).
Proof.
  intros v c0 H. destruct v as [| | | |s]; try (repeat split; reflexivity).
  now destruct (H s).
Qed.

Lemma parseText_not_a_string_number :
  (forall s, VNumber 5 <> VString s)
  /\ getSentences (VNumber 5) = Throw (TypeError "A string is required.")
  /\ getWords (VNumber 5) = Throw (TypeError "A string is required.")
  /\ parseText (VNumber 5) []
     = (Throw (TypeError "A string is required."), [])
  /\ deepParseText (VNumber 5) []
     = (Throw (TypeError "A string is required."), []).
Proof.
  assert (H : forall s, VNumber 5 <> VString s) by discriminate.
  exact (conj H (parseText_not_a_string (VNumber 5) [] H)).
Defined.

(** ** The results of [deepParseText] *)

Lemma logged_words_entries aryOfWords ws :
  Forall word_entry (logged_words aryOfWords ws).
Proof.
  induction ws as [|w ws IH]; [constructor|].
  cbn [logged_words flat_map]. fold (logged_words aryOfWords ws).
  destruct (getNumSyllablesInWord (VString w)); [exact IH|].
  repeat (constructor; [cbn; auto|]). exact IH.
Qed.

Lemma deepParseText_each_run todo :
  forall i acc c,
  exists rs logs,
    deepParseText_each todo i acc c = (Normal (acc ++ rs), c ++ logs)
    /\ Forall2 (fun s r => parses_to s r /\ parsed_from s r) todo rs
    /\ Forall word_entry logs.
Proof.
  induction todo as [|value rest IH]; intros i acc c.
  - exists [], []. cbn. rewrite !app_nil_r.
    repeat split; [constructor | constructor].
  - cbn [deepParseText_each]. unfold bind at 1. unfold try_catch, bind at 1.
    destruct (parseText_run value c) as (r & Hr & Hp). rewrite Hr.
    unfold ret at 1.
    destruct (IH (S i) (acc ++ [r]) (c ++ logged_words (words r) (words r)))
      as (rs & logs & E & F & L).
    rewrite E.
    exists (r :: rs), (logged_words (words r) (words r) ++ logs).
    rewrite <- !app_assoc. split; [reflexivity|]. split.
    + constructor; [|exact F]. split; [|exact Hp].
      exists c. eexists. exact Hr.
    + apply Forall_app. split; [apply logged_words_entries | exact L].
Qed.

Lemma deepParseText_run text c0 :
  exists d rs logs,
    deepParseText (VString text) c0 = (Normal d, c0 ++ logs)
    /\ parses_to text (result d)
    /\ parsed_from text (result d)
    /\ Forall2 (fun s r => parses_to s r /\ parsed_from s r)
         (sentences (result d)) rs
    /\ parsedSentences d = sort sortFleschKincaidGradeLevelDescending rs
    /\ Forall word_entry logs.
Proof.
  unfold deepParseText. unfold bind at 1.
  destruct (parseText_run text c0) as (r & Hr & Hp). rewrite Hr.
  unfold bind at 1.
  destruct (deepParseText_each_run (sentences r) 0 []
              (c0 ++ logged_words (words r) (words r)))
    as (rs & logs & E & F & L).
  rewrite E. cbn [app]. unfold ret.
  eexists. exists rs, (logged_words (words r) (words r) ++ logs).
  rewrite <- app_assoc. split; [reflexivity|].
  cbn [result parsedSentences].
  split; [exists c0; eexists; exact Hr|]. split; [exact Hp|].
  split; [exact F|]. split; [reflexivity|].
  apply Forall_app. split; [apply logged_words_entries | exact L].
Qed.

Lemma sentence_sources ss rs :
  Forall2 (fun s r => parses_to s r /\ parsed_from s r) ss rs ->
  map source rs = map VString ss.
Proof.
  induction 1 as [|s x ss xs [_ (Hx & _)] F IH]; [reflexivity|].
  cbn [map]. now rewrite Hx, IH.
Qed.

(** [deepParseText] returns on every string.  [result] is what [parseText]
    returns for the passage, and [parsedSentences] holds, in some order,
    what [parseText] returns for each of its sentences: one result for a
    sentence, none lost and none added, each with the sentence as its
    [source]. *)
Theorem deepParseText_results :
  forall text c0,
  exists d c rs,
    deepParseText (VString text) c0 = (Normal d, c)
    /\ parses_to text (result d)
    /\ Forall2 parses_to (sentences (result d)) rs
    /\ map source rs = map VString (sentences (result d))
    /\ Permutation (parsedSentences d) rs
    /\ length (parsedSentences d) = numSentences (result d).
Proof.
  intros text c0.
  destruct (deepParseText_run text c0)
    as (d & rs & logs & E & Hr & Hp & F & Hs & _).
  exists d, (c0 ++ logs), rs. split; [exact E|]. split; [exact Hr|].
  assert (Hlen : length rs = length (sentences (result d))).
  { symmetry. eapply Forall2_length. exact F. }
  rewrite Hs. split; [|split; [|split]].
  - eapply Forall2_impl; [|exact F]. now intros s x [H _].
  - exact (sentence_sources _ _ F).
  - apply sort_Permutation.
  - rewrite (Permutation_length (sort_Permutation _ rs)), Hlen.
    now destruct Hp as (_ & _ & -> & _).
Qed.

(** What [deepParseText] adds to the console comes from
    [getNumSyllablesPerWord] alone: the handler of its own loop, which
    would log the sentence and throw again, never runs on a string. *)
Theorem deepParseText_console :
  forall text c0,
  exists d logs,
    deepParseText (VString text) c0 = (Normal d, c0 ++ logs)
    /\ Forall word_entry logs
    /\ (forall e value i, ~ In (LogSentence e value i) logs)
    /\ ~ In (LogString "Error in ReadingAge.deepParseText loop") logs.
Proof.
  intros text c0.
  destruct (deepParseText_run text c0) as (d & rs & logs & E & _ & _ & _ & _ & H).
  exists d, logs. split; [exact E|]. split; [exact H|].
  rewrite Forall_forall in H. split.
  - intros e value i Hin. exact (H _ Hin).
  - intros Hin. apply H in Hin. discriminate Hin.
Qed.

(** ** The sign of a difference of two numbers

    The comparators return a difference.  The difference of two numbers
    is rounded, and these lemmas show that rounding keeps its sign: the
    numbers are written with their smaller exponent, which is no smaller
    than the least one, so that a difference that is not 0 is never
    rounded to 0. *)

Section Sign.
Local Open Scope Z_scope.

Lemma digits2_pos_bounds m :
  2 ^ (Z.pos (digits2_pos m) - 1) <= Z.pos m < 2 ^ Z.pos (digits2_pos m).
Proof.
  induction m as [p IH | p IH |]; cbn [digits2_pos].
  - rewrite Pos2Z.inj_succ, Z.pow_succ_r by lia.
    replace (Z.succ (Z.pos (digits2_pos p)) - 1)
      with (Z.succ (Z.pos (digits2_pos p) - 1)) by lia.
    rewrite Z.pow_succ_r by lia. lia.
  - rewrite Pos2Z.inj_succ, Z.pow_succ_r by lia.
    replace (Z.succ (Z.pos (digits2_pos p)) - 1)
      with (Z.succ (Z.pos (digits2_pos p) - 1)) by lia.
    rewrite Z.pow_succ_r by lia. lia.
  - cbn. lia.
Qed.

Lemma shr_1_bound mrs k :
  0 <= k -> 2 ^ (k + 1) <= shr_m mrs -> 2 ^ k <= shr_m (shr_1 mrs).
Proof.
  intros Hk. rewrite Z.add_1_r, Z.pow_succ_r by exact Hk.
  pose proof (Z.pow_pos_nonneg 2 k ltac:(lia) Hk) as Hp.
  destruct mrs as [m r s]. destruct m as [|[p|p|]|[p|p|]]; cbn [shr_1 shr_m]; lia.
Qed.

Lemma iter_shr_1_bound p :
  forall mrs k,
    0 <= k -> 2 ^ (k + Z.pos p) <= shr_m mrs ->
    2 ^ k <= shr_m (iter_pos shr_1 p mrs).
Proof.
  induction p as [p IH | p IH |]; intros mrs k Hk H; cbn [iter_pos].
  - apply IH; [exact Hk|]. apply IH; [lia|]. apply shr_1_bound; [lia|].
    replace (k + Z.pos p + Z.pos p + 1) with (k + Z.pos p~1) by lia.
    exact H.
  - apply IH; [exact Hk|]. apply IH; [lia|].
    replace (k + Z.pos p + Z.pos p) with (k + Z.pos p~0) by lia.
    exact H.
  - now apply shr_1_bound.
Qed.

Lemma shr_m_record_of_loc m l : shr_m (shr_record_of_loc m l) = m.
Proof. now destruct l as [|[]]. Qed.

Lemma fexp_eq e : fexp prec emax e = Z.max (e - 53) (-1074).
Proof. reflexivity. Qed.

Lemma shr_fexp_positive m e l :
  -1074 <= e ->
  0 < shr_m (fst (shr_fexp prec emax (Z.pos m) e l))
  /\ -1074 <= snd (shr_fexp prec emax (Z.pos m) e l).
Proof.
  intros He. unfold shr_fexp, shr. rewrite fexp_eq. cbn [Zdigits2].
  pose proof (digits2_pos_bounds m) as [Hd _].
  destruct (Z.max (Z.pos (digits2_pos m) + e - 53) (-1074) - e) as [|p|p] eqn:E;
    cbn [fst snd]; rewrite ?shr_m_record_of_loc; try (split; lia).
  split; [|lia].
  apply Z.lt_le_trans with (2 ^ 52); [reflexivity|].
  apply iter_shr_1_bound; [lia|]. rewrite shr_m_record_of_loc.
  replace (52 + Z.pos p) with (Z.pos (digits2_pos m) - 1) by lia.
  exact Hd.
Qed.

Lemma round_nearest_even_positive m l :
  0 < m -> 0 < round_nearest_even m l.
Proof.
  intros H. destruct l as [|[]]; cbn; try lia. destruct (Z.even m); lia.
Qed.

Lemma binary_round_aux_sign s m e l :
  -1074 <= e ->
  SFcompare (S754_zero false) (binary_round_aux prec emax s (Z.pos m) e l)
  = Some (if s then Gt else Lt).
Proof.
  intros He. unfold binary_round_aux.
  destruct (shr_fexp_positive m e l He) as [H1 H2].
  destruct (shr_fexp prec emax (Z.pos m) e l) as [mrs' e'].
  cbn [fst snd] in H1, H2.
  pose proof (round_nearest_even_positive _ (loc_of_shr_record mrs') H1) as H3.
  destruct (round_nearest_even (shr_m mrs') (loc_of_shr_record mrs'))
    as [|m2|m2]; try lia.
  destruct (shr_fexp_positive m2 e' loc_Exact H2) as [H4 _].
  destruct (shr_fexp prec emax (Z.pos m2) e' loc_Exact) as [mrs'' e''].
  cbn [fst] in H4.
  destruct (shr_m mrs'') as [|m3|m3]; try lia.
  now destruct (e'' <=? emax - prec).
Qed.

Lemma binary_round_sign s m e :
  -1074 <= e ->
  SFcompare (S754_zero false) (binary_round prec emax s m e)
  = Some (if s then Gt else Lt).
Proof.
  intros He. unfold binary_round, shl_align. rewrite fexp_eq.
  destruct (Z.max (Z.pos (digits2_pos m) + e - 53) (-1074) - e) eqn:E;
    apply binary_round_aux_sign; lia.
Qed.

(** Rounding keeps the sign: no number that is not 0 is rounded to 0. *)
Lemma binary_normalize_sign z e :
  -1074 <= e ->
  SFcompare (S754_zero false) (binary_normalize prec emax z e false)
  = Some (0 ?= z).
Proof.
  intros He. destruct z as [|m|m]; cbn [binary_normalize].
  - reflexivity.
  - now rewrite binary_round_sign.
  - now rewrite binary_round_sign.
Qed.

Lemma shl_align_value m e ez :
  ez <= e -> Z.pos (fst (shl_align m e ez)) = Z.pos m * 2 ^ (e - ez).
Proof.
  intros H. unfold shl_align. destruct (ez - e) as [|d|d] eqn:E; try lia.
  - replace (e - ez) with 0 by lia. cbn [fst]. lia.
  - cbn [fst]. change (PosDef.Pos.iter xO m d) with (shift_pos d m).
    rewrite shift_pos_correct, Z.pow_pos_fold.
    replace (e - ez) with (Z.pos d) by lia. lia.
Qed.

Lemma bounded_canonical m e :
  bounded prec emax m e = true ->
  -1074 <= e
  /\ Z.pos (digits2_pos m) <= 53
  /\ (e = -1074 \/ Z.pos (digits2_pos m) = 53).
Proof.
  unfold bounded, canonical_mantissa. rewrite fexp_eq.
  intros H. apply andb_true_iff in H as [H _]. apply Z.eqb_eq in H. lia.
Qed.

(** Of two bounded numbers the one with the larger exponent has the larger
    mantissa once both are written with the smaller exponent. *)
Lemma aligned_lt mx ex my ey :
  bounded prec emax mx ex = true -> bounded prec emax my ey = true ->
  ex < ey -> Z.pos mx < Z.pos my * 2 ^ (ey - ex).
Proof.
  intros Hx Hy Hlt.
  apply bounded_canonical in Hx as (Hex & Hdx & _).
  apply bounded_canonical in Hy as (_ & _ & Hdy).
  destruct Hdy as [-> | Hdy]; [lia|].
  pose proof (digits2_pos_bounds mx) as [_ Hmx].
  pose proof (digits2_pos_bounds my) as [Hmy _]. rewrite Hdy in Hmy.
  assert (H1 : 2 ^ Z.pos (digits2_pos mx) <= 2 ^ 53)
    by (apply Z.pow_le_mono_r; lia).
  assert (H2 : 2 ^ 1 <= 2 ^ (ey - ex)) by (apply Z.pow_le_mono_r; lia).
  change (2 ^ (53 - 1)) with 4503599627370496 in Hmy.
  change (2 ^ 53) with 9007199254740992 in H1.
  change (2 ^ 1) with 2 in H2. nia.
Qed.

Ltac compare_by_lia :=
  f_equal;
  first [apply Z.compare_eq_iff | apply Z.compare_lt_iff
        | apply Z.compare_gt_iff];
  lia.

Lemma SFsub_finite sx mx ex sy my ey :
  bounded prec emax mx ex = true -> bounded prec emax my ey = true ->
  SFcompare (S754_zero false)
    (SFsub prec emax (S754_finite sy my ey) (S754_finite sx mx ex))
  = SFcompare (S754_finite sx mx ex) (S754_finite sy my ey).
Proof.
  intros Hx Hy. cbn [SFsub]. cbv zeta.
  change (IntDef.Z.min ey ex) with (Z.min ey ex).
  destruct (bounded_canonical _ _ Hx) as (Hex & _).
  destruct (bounded_canonical _ _ Hy) as (Hey & _).
  rewrite binary_normalize_sign by lia.
  rewrite !shl_align_value by lia.
  unfold SFcompare.
  change (PosDef.Pos.compare_cont Eq mx my) with (Pos.compare mx my).
  pose proof (Z.pow_pos_nonneg 2 (ey - Z.min ey ex) ltac:(lia) ltac:(lia)).
  pose proof (Z.pow_pos_nonneg 2 (ex - Z.min ey ex) ltac:(lia) ltac:(lia)).
  assert (Hcmp : ex < ey -> Z.pos mx < Z.pos my * 2 ^ (ey - ex))
    by (intros; now apply aligned_lt).
  assert (Hcmp' : ey < ex -> Z.pos my < Z.pos mx * 2 ^ (ex - ey))
    by (intros; now apply aligned_lt).
  destruct sx, sy; cbn [cond_Zopp]; try compare_by_lia.
  - destruct (Z.compare_spec ex ey) as [-> | Hlt | Hgt].
    + rewrite Z.min_id, Z.sub_diag, !Z.mul_1_r.
      destruct (Pos.compare_spec mx my) as [-> | H1 | H1]; cbn [CompOpp];
        compare_by_lia.
    + rewrite Z.min_r, Z.sub_diag, Z.mul_1_r by lia. specialize (Hcmp Hlt).
      compare_by_lia.
    + rewrite Z.min_l, Z.sub_diag, Z.mul_1_r by lia. specialize (Hcmp' Hgt).
      compare_by_lia.
  - destruct (Z.compare_spec ex ey) as [-> | Hlt | Hgt].
    + rewrite Z.min_id, Z.sub_diag, !Z.mul_1_r.
      destruct (Pos.compare_spec mx my) as [-> | H1 | H1]; compare_by_lia.
    + rewrite Z.min_r, Z.sub_diag, Z.mul_1_r by lia. specialize (Hcmp Hlt).
      compare_by_lia.
    + rewrite Z.min_l, Z.sub_diag, Z.mul_1_r by lia. specialize (Hcmp' Hgt).
      compare_by_lia.
Qed.

End Sign.

Lemma SFcompare_antisym x y :
  SFcompare y x = option_map CompOpp (SFcompare x y).
Proof.
  destruct x as [sx | sx | | sx mx ex], y as [sy | sy | | sy my ey];
    try reflexivity; try (now destruct sx); try (now destruct sy);
    try (now destruct sx, sy).
  cbn [SFcompare option_map].
  change (PosDef.Pos.compare_cont Eq my mx) with (Pos.compare my mx).
  change (PosDef.Pos.compare_cont Eq mx my) with (Pos.compare mx my).
  rewrite (Z.compare_antisym ex ey), (Pos.compare_antisym mx my).
  destruct sx, sy; try reflexivity;
    destruct (ex ?= ey)%Z; try reflexivity;
    now destruct (mx ?= my)%positive.
Qed.

Lemma SFsub_sign x y :
  valid_binary x = true -> valid_binary y = true ->
  SFltb (S754_zero false) (SFsub prec emax y x) = SFltb x y
  /\ SFltb (SFsub prec emax y x) (S754_zero false) = SFltb y x.
Proof.
  intros Hx Hy.
  destruct x as [sx | sx | | sx mx ex], y as [sy | sy | | sy my ey];
    try (split; reflexivity);
    try (now destruct sx); try (now destruct sy);
    try (now destruct sx, sy).
  cbn [valid_binary] in Hx, Hy. unfold SFltb.
  rewrite (SFcompare_antisym (S754_zero false) (SFsub _ _ _ _)).
  rewrite (SFcompare_antisym (S754_finite sx mx ex) (S754_finite sy my ey)).
  rewrite SFsub_finite by assumption.
  split; [reflexivity|].
  now destruct (SFcompare (S754_finite sx mx ex) (S754_finite sy my ey))
    as [[]|].
Qed.

(** The sign of a difference tells which number is the larger one. *)
Lemma sub_sign x y :
  (0 <? y - x)%float = (x <? y)%float
  /\ (y - x <? 0)%float = (y <? x)%float.
Proof.
  rewrite !ltb_spec, sub_spec. change (Prim2SF 0) with (S754_zero false).
  apply SFsub_sign; apply Prim2SF_valid.
Qed.

Lemma SFcompare_Eq_finite s1 m1 e1 s2 m2 e2 :
  SFcompare (S754_finite s1 m1 e1) (S754_finite s2 m2 e2) = Some Eq ->
  s1 = s2 /\ m1 = m2 /\ e1 = e2.
Proof.
  cbn [SFcompare].
  change (PosDef.Pos.compare_cont Eq m1 m2) with (Pos.compare m1 m2).
  destruct s1, s2; try discriminate;
    destruct (Z.compare_spec e1 e2); try discriminate;
    destruct (Pos.compare_spec m1 m2); try discriminate; auto.
Qed.

Lemma SFcompare_Eq_trans x y g :
  SFcompare x g = Some Eq -> SFcompare y g = Some Eq ->
  SFcompare x y = Some Eq.
Proof.
  destruct g as [sg | sg | | sg mg eg].
  - destruct x as [sx | sx | | sx mx ex]; try discriminate;
      try (destruct sx; discriminate).
    destruct y as [sy | sy | | sy my ey]; try discriminate;
      try (destruct sy; discriminate).
    reflexivity.
  - destruct x as [sx | sx | | sx mx ex]; try discriminate;
      try (destruct sg; discriminate).
    destruct y as [sy | sy | | sy my ey]; try discriminate;
      try (destruct sg; discriminate).
    destruct sx, sy, sg; try discriminate; reflexivity.
  - destruct x; discriminate.
  - destruct x as [sx | sx | | sx mx ex]; try discriminate;
      try (destruct sg; discriminate); try (destruct sx; discriminate).
    destruct y as [sy | sy | | sy my ey]; try discriminate;
      try (destruct sg; discriminate); try (destruct sy; discriminate).
    intros H1 H2.
    apply SFcompare_Eq_finite in H1 as (-> & -> & ->).
    apply SFcompare_Eq_finite in H2 as (-> & -> & ->).
    now apply SFcompare_refl.
Qed.

Lemma ltb_leb x y : (x <? y)%float = true -> (x <=? y)%float = true.
Proof.
  rewrite ltb_spec, FloatAxioms.leb_spec. unfold SFltb, SFleb.
  now destruct (SFcompare (Prim2SF x) (Prim2SF y)) as [[]|].
Qed.

Lemma not_nan_spec x : PrimFloat.is_nan x = false -> Prim2SF x <> S754_nan.
Proof.
  unfold PrimFloat.is_nan. rewrite FloatAxioms.eqb_spec. unfold SFeqb.
  intros H E. rewrite E in H. discriminate H.
Qed.

Lemma SFcompare_some x y :
  x <> S754_nan -> y <> S754_nan -> SFcompare x y <> None.
Proof.
  destruct x, y; cbn; congruence.
Qed.

Lemma not_ltb_leb x y :
  PrimFloat.is_nan x = false -> PrimFloat.is_nan y = false ->
  (x <? y)%float = false -> (y <=? x)%float = true.
Proof.
  intros Hx Hy. apply not_nan_spec in Hx, Hy.
  rewrite ltb_spec, FloatAxioms.leb_spec. unfold SFltb, SFleb.
  rewrite (SFcompare_antisym (Prim2SF x) (Prim2SF y)).
  pose proof (SFcompare_some _ _ Hx Hy).
  now destruct (SFcompare (Prim2SF x) (Prim2SF y)) as [[]|].
Qed.

Lemma eqb_not_ltb x y g :
  (x =? g)%float = true -> (y =? g)%float = true -> (x <? y)%float = false.
Proof.
  rewrite !FloatAxioms.eqb_spec, ltb_spec. unfold SFeqb, SFltb. intros Hx Hy.
  rewrite (SFcompare_Eq_trans (Prim2SF x) (Prim2SF y) (Prim2SF g));
    [reflexivity | |].
  - now destruct (SFcompare (Prim2SF x) (Prim2SF g)) as [[]|].
  - now destruct (SFcompare (Prim2SF y) (Prim2SF g)) as [[]|].
Qed.

(** ** Sorting by an index, largest first *)

Lemma forallb_Permutation {A} (p : A -> bool) l l' :
  Permutation l l' -> forallb p l = true -> forallb p l' = true.
Proof.
  intros Hp H. rewrite forallb_forall in H |- *.
  intros a Ha. apply H. now apply (Permutation_in _ (Permutation_sym Hp)).
Qed.

Section Descending.
Variable A : Type.
Variable key : A -> float.
Variable comparefn : A -> A -> float.
Hypothesis comparefn_key : forall a b, comparefn a b = (key b - key a)%float.

Lemma sort_insert_head x s :
  exists h t,
    sort_insert comparefn x s = h :: t /\ (h = x \/ exists t', s = h :: t').
Proof.
  destruct s as [|y rest]; cbn [sort_insert]; [now exists x, []; auto|].
  destruct (0 <? comparefn x y)%float.
  - exists y, (sort_insert comparefn x rest). split; [reflexivity|].
    right. now exists rest.
  - exists x, (y :: rest). auto.
Qed.

Lemma sort_insert_non_increasing x s :
  PrimFloat.is_nan (key x) = false ->
  forallb (fun r => negb (PrimFloat.is_nan (key r))) s = true ->
  non_increasing (map key s) = true ->
  non_increasing (map key (sort_insert comparefn x s)) = true.
Proof.
  intros Hx. induction s as [|y rest IH]; intros Hs Hsorted; [reflexivity|].
  cbn [forallb] in Hs. apply andb_true_iff in Hs as [Hy Hs].
  apply negb_true_iff in Hy.
  cbn [sort_insert]. rewrite comparefn_key.
  destruct (sub_sign (key x) (key y)) as [-> _].
  destruct (key x <? key y)%float eqn:Hlt.
  - assert (Hrest : non_increasing (map key rest) = true).
    { destruct rest as [|z rest']; [reflexivity|].
      cbn [map non_increasing] in Hsorted.
      now apply andb_true_iff in Hsorted as [_ H]. }
    specialize (IH Hs Hrest).
    destruct (sort_insert_head x rest) as (h & t & E & Hh).
    rewrite E in IH |- *. cbn [map non_increasing] in IH |- *.
    apply andb_true_iff. split; [|exact IH].
    destruct Hh as [-> | [t' ->]]; [now apply ltb_leb|].
    cbn [map non_increasing] in Hsorted.
    now apply andb_true_iff in Hsorted as [H _].
  - cbn [map non_increasing] in Hsorted |- *.
    apply andb_true_iff. split; [|exact Hsorted].
    now apply not_ltb_leb.
Qed.

Lemma sort_non_increasing l :
  forallb (fun r => negb (PrimFloat.is_nan (key r))) l = true ->
  non_increasing (map key (sort comparefn l)) = true.
Proof.
  induction l as [|x rest IH]; intros H; [reflexivity|].
  cbn [forallb] in H. apply andb_true_iff in H as [Hx H].
  apply negb_true_iff in Hx. cbn [sort].
  apply sort_insert_non_increasing; [exact Hx | | now apply IH].
  apply (forallb_Permutation _ rest); [|exact H].
  apply Permutation_sym, sort_Permutation.
Qed.

Lemma sort_insert_stable g x s :
  filter (fun r => (key r =? g)%float) (sort_insert comparefn x s)
  = filter (fun r => (key r =? g)%float) (x :: s).
Proof.
  induction s as [|y rest IH]; [reflexivity|].
  cbn [sort_insert]. rewrite comparefn_key.
  destruct (sub_sign (key x) (key y)) as [-> _].
  destruct (key x <? key y)%float eqn:Hlt; [|reflexivity].
  cbn [filter] in IH |- *. rewrite IH.
  destruct (key x =? g)%float eqn:Ex; [|reflexivity].
  destruct (key y =? g)%float eqn:Ey; [|reflexivity].
  rewrite (eqb_not_ltb _ _ _ Ex Ey) in Hlt. discriminate Hlt.
Qed.

Lemma sort_stable g l :
  filter (fun r => (key r =? g)%float) (sort comparefn l)
  = filter (fun r => (key r =? g)%float) l.
Proof.
  induction l as [|x rest IH]; [reflexivity|].
  cbn [sort]. rewrite sort_insert_stable. cbn [filter]. now rewrite IH.
Qed.

End Descending.

(** Each comparator is positive exactly where the first result has the
    smaller index and negative exactly where it has the larger one:
    rounding the difference does not change its sign, and no difference
    of two distinct numbers is rounded to 0. *)
Theorem comparators_sign :
  forall a b,
    (0 <? sortFleschKincaidGradeLevelDescending a b)%float
    = (fleschKincaidGradeLevel a <? fleschKincaidGradeLevel b)%float
    /\ (sortFleschKincaidGradeLevelDescending a b <? 0)%float
       = (fleschKincaidGradeLevel b <? fleschKincaidGradeLevel a)%float
    /\ (0 <? sortSmogIndexDescending a b)%float
       = (smogIndex a <? smogIndex b)%float
    /\ (sortSmogIndexDescending a b <? 0)%float
       = (smogIndex b <? smogIndex a)%float.
Proof.
  intros a b.
  unfold sortFleschKincaidGradeLevelDescending, sortSmogIndexDescending.
  destruct (sub_sign (fleschKincaidGradeLevel a) (fleschKincaidGradeLevel b))
    as [H1 H2].
  destruct (sub_sign (smogIndex a) (smogIndex b)) as [H3 H4].
  auto.
Qed.

(** With [sortSmogIndexDescending] as its comparator, [sort] arranges
    results of which none has NaN for its SMOG index in non-increasing
    order of that index, and results of the same index keep their
    order. *)
Theorem sortSmogIndexDescending_sorts :
  forall l,
    are_numbers smogIndex l = true ->
    Permutation (sort sortSmogIndexDescending l) l
    /\ non_increasing (map smogIndex (sort sortSmogIndexDescending l)) = true
    /\ forall g,
         with_index smogIndex g (sort sortSmogIndexDescending l)
         = with_index smogIndex g l.
Proof.
  intros l H. split; [apply sort_Permutation|]. split.
  - now apply sort_non_increasing.
  - intros g. now apply sort_stable.
Qed.

Lemma sortSmogIndexDescending_sorts_passage :
  are_numbers smogIndex three_results = true
  /\ map source three_results
     = [VString (lit "a."); VString (lit " b c d.");
        VString (lit " Extraordinarily complicated sentences.")]
  /\ map source (sort sortSmogIndexDescending three_results)
     = [VString (lit " Extraordinarily complicated sentences.");
        VString (lit "a."); VString (lit " b c d.")]
  /\ Permutation (sort sortSmogIndexDescending three_results) three_results
  /\ non_increasing
       (map smogIndex (sort sortSmogIndexDescending three_results)) = true
  /\ forall g,
       with_index smogIndex g (sort sortSmogIndexDescending three_results)
       = with_index smogIndex g three_results.
Proof.
  assert (H : are_numbers smogIndex three_results = true)
    by (vm_compute; reflexivity).
  split; [exact H|]. split; [vm_compute; reflexivity|].
  split; [vm_compute; reflexivity|].
  exact (sortSmogIndexDescending_sorts three_results H).
Defined.

(** Where no sentence has NaN for its grade level, [parsedSentences] is
    in non-increasing order of the grade level, and the sentences of one
    grade level keep the order they have in the passage. *)
Theorem deepParseText_sorted :
  forall text c0 d c,
    deepParseText (VString text) c0 = (Normal d, c) ->
    are_numbers fleschKincaidGradeLevel (parsedSentences d) = true ->
    non_increasing (grade_levels (parsedSentences d)) = true
    /\ exists rs,
         Forall2 parses_to (sentences (result d)) rs
         /\ forall g,
              with_index fleschKincaidGradeLevel g (parsedSentences d)
              = with_index fleschKincaidGradeLevel g rs.
Proof.
  intros text c0 d c Hd Hnum.
  destruct (deepParseText_run text c0)
    as (d' & rs & logs & E & _ & _ & F & Hs & _).
  rewrite E in Hd. injection Hd as <- <-.
  rewrite Hs in Hnum |- *. split.
  - apply sort_non_increasing; [reflexivity|].
    exact (forallb_Permutation _ _ _ (sort_Permutation _ rs) Hnum).
  - exists rs. split.
    + eapply Forall2_impl; [|exact F]. now intros s x [H _].
    + intros g. now apply sort_stable.
Qed.

Lemma deepParseText_sorted_passage :
  exists d c,
    deepParseText (VString (lit "a. b c d.")) [] = (Normal d, c)
    /\ are_numbers fleschKincaidGradeLevel (parsedSentences d) = true
    /\ map source (parsedSentences d)
       = [VString (lit " b c d."); VString (lit "a.")]
    /\ non_increasing (grade_levels (parsedSentences d)) = true
    /\ exists rs,
         Forall2 parses_to (sentences (result d)) rs
         /\ forall g,
              with_index fleschKincaidGradeLevel g (parsedSentences d)
              = with_index fleschKincaidGradeLevel g rs.
Proof.
  eexists. eexists.
  match goal with
  | |- ?E /\ _ => assert (Hd : E) by (vm_compute; reflexivity)
  end.
  split; [exact Hd|].
  match goal with
  | |- ?E /\ _ => assert (Hn : E) by (vm_compute; reflexivity)
  end.
  split; [exact Hn|]. split; [vm_compute; reflexivity|].
  exact (deepParseText_sorted _ _ _ _ Hd Hn).
Defined.

(** ** Results that are numbers

    The operations of the metrics never give NaN on the quotients of
    counts of which the divisor is not 0: rounding keeps the sign of a
    number, and a count is converted to a finite number. *)

Section Shape.
Local Open Scope Z_scope.

Lemma shr_1_nonneg mrs :
  0 <= shr_m mrs -> 0 <= shr_m (shr_1 mrs) <= shr_m mrs.
Proof.
  destruct mrs as [m r s]. destruct m as [|[p|p|]|[p|p|]]; cbn [shr_1 shr_m]; lia.
Qed.

Lemma iter_shr_1_nonneg p :
  forall mrs,
    0 <= shr_m mrs -> 0 <= shr_m (iter_pos shr_1 p mrs) <= shr_m mrs.
Proof.
  induction p as [p IH | p IH |]; intros mrs H; cbn [iter_pos].
  - pose proof (shr_1_nonneg mrs H) as H1.
    pose proof (IH _ (proj1 H1)) as H2.
    pose proof (IH _ (proj1 H2)) as H3. lia.
  - pose proof (IH _ H) as H2.
    pose proof (IH _ (proj1 H2)) as H3. lia.
  - now apply shr_1_nonneg.
Qed.

Lemma shr_fexp_nonneg m e l :
  0 <= m -> 0 <= shr_m (fst (shr_fexp prec emax m e l)) <= m.
Proof.
  intros H. unfold shr_fexp, shr.
  destruct (fexp prec emax (Zdigits2 m + e) - e) as [|p|p];
    cbn [fst]; rewrite ?shr_m_record_of_loc; try lia.
  pose proof (iter_shr_1_nonneg p (shr_record_of_loc m l)) as H1.
  rewrite shr_m_record_of_loc in H1. auto.
Qed.

Lemma round_nearest_even_nonneg m l :
  0 <= m -> m <= round_nearest_even m l <= m + 1.
Proof.
  intros H. destruct l as [|[]]; cbn; try lia. destruct (Z.even m); lia.
Qed.

(** Rounding gives a number of the sign asked for, never NaN. *)
Lemma binary_round_aux_shape s m e l :
  0 <= m ->
  binary_round_aux prec emax s m e l = S754_zero s
  \/ (exists m' e', binary_round_aux prec emax s m e l = S754_finite s m' e')
  \/ binary_round_aux prec emax s m e l = S754_infinity s.
Proof.
  intros H. unfold binary_round_aux.
  pose proof (shr_fexp_nonneg m e l H) as H1.
  destruct (shr_fexp prec emax m e l) as [mrs' e']. cbn [fst] in H1.
  pose proof (round_nearest_even_nonneg _ (loc_of_shr_record mrs') (proj1 H1))
    as H2.
  pose proof (shr_fexp_nonneg
                (round_nearest_even (shr_m mrs') (loc_of_shr_record mrs'))
                e' loc_Exact ltac:(lia)) as H3.
  destruct (shr_fexp prec emax _ e' loc_Exact) as [mrs'' e'']. cbn [fst] in H3.
  destruct (shr_m mrs'') as [|m3|m3]; [now left | | lia].
  destruct (e'' <=? emax - prec); [|now right; right].
  right. left. now exists m3, e''.
Qed.

Lemma binary_normalize_not_nan z e :
  binary_normalize prec emax z e false <> S754_nan.
Proof.
  destruct z as [|m|m]; cbn [binary_normalize]; [discriminate| |];
    unfold binary_round;
    destruct (shl_align m e _) as [mz ez];
    match goal with
    | |- binary_round_aux _ _ ?s _ _ _ <> _ =>
        destruct (binary_round_aux_shape s (Z.pos mz) ez loc_Exact ltac:(lia))
          as [-> | [(m' & e' & ->) | ->]]; discriminate
    end.
Qed.

Lemma binary_round_aux_nonneg m e l :
  0 <= m ->
  SFleb (S754_zero false) (binary_round_aux prec emax false m e l) = true.
Proof.
  intros H.
  destruct (binary_round_aux_shape false m e l H)
    as [-> | [(m' & e' & ->) | ->]]; reflexivity.
Qed.

Lemma SFmul_nonneg m e y :
  SFleb (S754_zero false) y = true ->
  SFleb (S754_zero false) (SFmul prec emax (S754_finite false m e) y) = true.
Proof.
  destruct y as [sy | sy | | sy my ey]; cbn [SFmul xorb]; try discriminate.
  - reflexivity.
  - now destruct sy.
  - destruct sy; [discriminate|]. intros _.
    apply binary_round_aux_nonneg. lia.
Qed.

Lemma SFadd_nonneg x y :
  SFleb (S754_zero false) x = true -> SFleb (S754_zero false) y = true ->
  SFleb (S754_zero false) (SFadd prec emax x y) = true.
Proof.
  destruct x as [sx | sx | | sx mx ex], y as [sy | sy | | sy my ey];
    try discriminate; try (now destruct sx); try (now destruct sy);
    try (now destruct sx, sy).
  destruct sx, sy; try discriminate. intros _ _.
  cbn [SFadd cond_Zopp]. cbv zeta.
  destruct (Z.pos (fst (shl_align mx ex (IntDef.Z.min ex ey)))
            + Z.pos (fst (shl_align my ey (IntDef.Z.min ex ey))))
    as [|m|m] eqn:E; try lia.
  cbn [binary_normalize]. unfold binary_round.
  destruct (shl_align m _ _) as [mz ez].
  apply binary_round_aux_nonneg. lia.
Qed.

Lemma SFsub_not_nan x s m e :
  SFleb (S754_zero false) x = true ->
  SFsub prec emax x (S754_finite s m e) <> S754_nan.
Proof.
  destruct x as [sx | sx | | sx mx ex]; try discriminate.
  intros _. cbn [SFsub]. cbv zeta. apply binary_normalize_not_nan.
Qed.

Lemma SFsqrt_nonneg x :
  SFleb (S754_zero false) x = true ->
  SFleb (S754_zero false) (SFsqrt prec emax x) = true.
Proof.
  destruct x as [sx | sx | | sx mx ex]; try discriminate;
    try (now destruct sx).
  destruct sx; [discriminate|]. intros _. cbn [SFsqrt].
  unfold SFsqrt_core_binary. cbv zeta.
  match goal with
  | |- context [IntDef.Z.sqrtrem ?a] =>
      pose proof (Z.sqrtrem_sqrt a) as Hq;
      change (IntDef.Z.sqrtrem a) with (Z.sqrtrem a);
      destruct (Z.sqrtrem a) as [q r]
  end.
  cbn [fst] in Hq. apply binary_round_aux_nonneg. rewrite Hq.
  apply Z.sqrt_nonneg.
Qed.

Lemma SFdiv_nonneg x my ey :
  x <> S754_infinity false -> SFleb (S754_zero false) x = true ->
  SFleb (S754_zero false) (SFdiv prec emax x (S754_finite false my ey)) = true.
Proof.
  destruct x as [sx | sx | | sx mx ex]; try discriminate.
  - intros _ _. reflexivity.
  - destruct sx; [discriminate | congruence].
  - destruct sx; [discriminate|]. intros _ _. cbn [SFdiv xorb].
    unfold SFdiv_core_binary. cbv zeta.
    match goal with
    | |- context [IntDef.Z.div_eucl ?a ?b] =>
        assert (Ha : 0 <= a);
        [| pose proof (Z_div_mod a b ltac:(lia)) as Hq;
           change (IntDef.Z.div_eucl a b) with (Z.div_eucl a b);
           destruct (Z.div_eucl a b) as [q r] ]
    end.
    + destruct (ex - ey - _) as [|p|p]; try lia.
      change (IntDef.Z.shiftl (Z.pos mx) (Z.pos p))
        with (Z.shiftl (Z.pos mx) (Z.pos p)).
      apply Z.shiftl_nonneg. lia.
    + apply binary_round_aux_nonneg. nia.
Qed.

(** A number below 2^63 is converted to a finite number. *)
Lemma shr_fexp_bounds m e l k :
  -1074 <= e -> 0 < m < 2 ^ k ->
  0 < shr_m (fst (shr_fexp prec emax m e l)) <= m
  /\ e <= snd (shr_fexp prec emax m e l) <= Z.max e (k + e - 53).
Proof.
  intros He [Hm Hk]. destruct m as [|m|m]; try lia.
  destruct (shr_fexp_positive m e l He) as [H1 _].
  pose proof (shr_fexp_nonneg (Z.pos m) e l ltac:(lia)) as H2.
  split; [lia|].
  unfold shr_fexp, shr. rewrite fexp_eq. cbn [Zdigits2].
  pose proof (digits2_pos_bounds m) as [Hd _].
  assert (Z.pos (digits2_pos m) - 1 < k).
  { apply (Z.pow_lt_mono_r_iff 2); [lia | | lia].
    destruct k; try lia. cbn in Hk. lia. }
  destruct (Z.max (Z.pos (digits2_pos m) + e - 53) (-1074) - e) as [|p|p] eqn:E;
    cbn [snd]; lia.
Qed.

Lemma binary_round_aux_finite s m e l :
  -1074 <= e <= 0 -> 0 < m < 2 ^ 63 ->
  exists m' e', binary_round_aux prec emax s m e l = S754_finite s m' e'.
Proof.
  intros He Hm. unfold binary_round_aux.
  destruct (shr_fexp_bounds m e l 63 ltac:(lia) Hm) as [H1 H2].
  destruct (shr_fexp prec emax m e l) as [mrs' e']. cbn [fst snd] in H1, H2.
  pose proof (round_nearest_even_nonneg (shr_m mrs') (loc_of_shr_record mrs')
                ltac:(lia)) as H3.
  assert (H4 : 0 < round_nearest_even (shr_m mrs') (loc_of_shr_record mrs')
               < 2 ^ 64).
  { change (2 ^ 64) with (2 * 2 ^ 63). lia. }
  destruct (shr_fexp_bounds _ e' loc_Exact 64 ltac:(lia) H4) as [H5 H6].
  destruct (shr_fexp prec emax _ e' loc_Exact) as [mrs'' e''].
  cbn [fst snd] in H5, H6.
  destruct (shr_m mrs'') as [|m3|m3]; try lia.
  replace (e'' <=? emax - prec) with true.
  - now exists m3, e''.
  - symmetry. apply Z.leb_le. change (emax - prec) with 971. lia.
Qed.

Lemma binary_normalize_int z :
  0 <= z < 2 ^ 63 ->
  binary_normalize prec emax z 0 false = S754_zero false
  \/ exists m e, binary_normalize prec emax z 0 false = S754_finite false m e.
Proof.
  intros Hz. destruct z as [|m|m]; [now left | right | lia].
  cbn [binary_normalize]. unfold binary_round.
  pose proof (digits2_pos_bounds m) as [Hd1 Hd2].
  unfold shl_align. rewrite fexp_eq.
  destruct (Z.max (Z.pos (digits2_pos m) + 0 - 53) (-1074) - 0)
    as [|p|p] eqn:E.
  - apply binary_round_aux_finite; lia.
  - apply binary_round_aux_finite; lia.
  - apply binary_round_aux_finite; [lia|].
    change (PosDef.Pos.iter xO m p) with (shift_pos p m).
    rewrite shift_pos_correct, Z.pow_pos_fold. split; [lia|].
    assert (Hp : Z.pos p = 53 - Z.pos (digits2_pos m)) by lia.
    apply Z.lt_trans with (2 ^ 53); [|reflexivity].
    replace 53 with (Z.pos p + Z.pos (digits2_pos m)) by lia.
    rewrite Z.pow_add_r by lia.
    apply Z.mul_lt_mono_pos_l; [apply Z.pow_pos_nonneg; lia | lia].
Qed.

Lemma binary_normalize_int_positive z :
  0 < z < 2 ^ 63 ->
  exists m e, binary_normalize prec emax z 0 false = S754_finite false m e.
Proof.
  intros Hz. destruct (binary_normalize_int z ltac:(lia)) as [E | H];
    [|exact H].
  destruct z as [|m|m]; try lia.
  pose proof (binary_normalize_sign (Z.pos m) 0 ltac:(lia)) as H.
  rewrite E in H. discriminate H.
Qed.

End Shape.

Lemma number_of_nat_shape n :
  Prim2SF (number_of_nat n) = S754_zero false
  \/ exists m e, Prim2SF (number_of_nat n) = S754_finite false m e.
Proof.
  unfold number_of_nat. rewrite of_uint63_spec.
  apply binary_normalize_int. apply Uint63.to_Z_bounded.
Qed.

Lemma number_of_nat_positive n :
  0 < n -> (Z.of_nat n < 2 ^ 63)%Z ->
  exists m e, Prim2SF (number_of_nat n) = S754_finite false m e.
Proof.
  intros H0 H. unfold number_of_nat. rewrite of_uint63_spec.
  apply binary_normalize_int_positive.
  rewrite Uint63.of_Z_spec, Z.mod_small; [lia|].
  change Uint63.wB with (2 ^ 63)%Z. lia.
Qed.

(** The quotient of two counts is 0 or more where the divisor is not 0. *)
Lemma count_quotient a b :
  0 < b -> (Z.of_nat b < 2 ^ 63)%Z ->
  (0 <=? number_of_nat a / number_of_nat b)%float = true.
Proof.
  intros H0 H. rewrite FloatAxioms.leb_spec, FloatAxioms.div_spec.
  change (Prim2SF 0) with (S754_zero false). unfold SF64div.
  destruct (number_of_nat_positive b H0 H) as (m & e & ->).
  destruct (number_of_nat_shape a) as [-> | (ma & ea & ->)];
    apply SFdiv_nonneg; (discriminate || reflexivity).
Qed.

Lemma mul_nonneg c y :
  (exists m e, Prim2SF c = S754_finite false m e) ->
  (0 <=? y)%float = true -> (0 <=? c * y)%float = true.
Proof.
  intros (m & e & Hc). rewrite !FloatAxioms.leb_spec, FloatAxioms.mul_spec, Hc.
  apply SFmul_nonneg.
Qed.

Lemma add_nonneg x y :
  (0 <=? x)%float = true -> (0 <=? y)%float = true ->
  (0 <=? x + y)%float = true.
Proof.
  rewrite !FloatAxioms.leb_spec, FloatAxioms.add_spec. apply SFadd_nonneg.
Qed.

Lemma sqrt_nonneg x :
  (0 <=? x)%float = true -> (0 <=? PrimFloat.sqrt x)%float = true.
Proof.
  rewrite !FloatAxioms.leb_spec, FloatAxioms.sqrt_spec. apply SFsqrt_nonneg.
Qed.

Lemma sub_not_nan x c :
  (exists s m e, Prim2SF c = S754_finite s m e) ->
  (0 <=? x)%float = true -> PrimFloat.is_nan (x - c) = false.
Proof.
  intros (s & m & e & Hc). rewrite FloatAxioms.leb_spec. intros Hx.
  destruct (PrimFloat.is_nan (x - c)) eqn:E; [|reflexivity].
  apply is_nan_spec in E. rewrite FloatAxioms.sub_spec, Hc in E.
  now apply SFsub_not_nan in E.
Qed.

Ltac finite_constant :=
  match goal with
  | |- exists m e, Prim2SF ?c = S754_finite false m e =>
      let v := eval vm_compute in (Prim2SF c) in
      match v with
      | S754_finite false ?m ?e => exists m, e; vm_compute; reflexivity
      end
  | |- exists s m e, Prim2SF ?c = S754_finite s m e =>
      let v := eval vm_compute in (Prim2SF c) in
      match v with
      | S754_finite ?s ?m ?e => exists s, m, e; vm_compute; reflexivity
      end
  end.

(** ** The counts of a passage with a letter *)

Lemma replace_runs_from_length p r s :
  forall inrun, length (replace_runs_from p r inrun s) <= length s.
Proof.
  induction s as [|c t IH]; intros inrun; cbn [replace_runs_from length];
    [apply Nat.le_refl|].
  destruct (p c); [destruct inrun|]; cbn [length];
    match goal with
    | |- context [replace_runs_from p r ?b t] => specialize (IH b); lia
    end.
Qed.

Lemma split_length sep s : length (split sep s) <= length s + 1.
Proof.
  induction s as [|c t IH]; cbn [split length]; [lia|].
  destruct (sep c); cbn [length]; [lia|].
  destruct (split sep t); cbn [length] in *; lia.
Qed.

Lemma space_not_letter c : is_space c = true -> is_letter c = false.
Proof.
  unfold is_space, is_letter. intros H. apply N.eqb_eq in H. now rewrite H.
Qed.

Lemma has_letter_replace_runs s :
  forall inrun,
    has_letter (replace_runs_from is_lf SP inrun s) = has_letter s.
Proof.
  unfold has_letter.
  induction s as [|c t IH]; intros inrun; [reflexivity|].
  cbn [replace_runs_from]. destruct (is_lf c) eqn:Hc.
  - apply lf_not_letter in Hc. cbn [existsb]. rewrite Hc.
    destruct inrun; cbn [existsb]; now rewrite IH.
  - cbn [existsb]. now rewrite IH.
Qed.

Lemma has_letter_split s :
  existsb has_letter (split is_space s) = has_letter s.
Proof.
  unfold has_letter at 2.
  induction s as [|c t IH]; [reflexivity|]. cbn [split existsb].
  destruct (is_space c) eqn:Hc.
  - apply space_not_letter in Hc. rewrite Hc. cbn [existsb has_letter orb].
    exact IH.
  - rewrite <- IH. destruct (split is_space t) as [|w ws]; cbn [existsb].
    + unfold has_letter. cbn [existsb]. now rewrite !orb_false_r.
    + unfold has_letter at 1. cbn [existsb]. fold (has_letter w).
      now rewrite orb_assoc.
Qed.

Lemma existsb_Forall2 {A B} (f : A -> bool) (g : B -> bool) l l' :
  Forall2 (fun a b => g b = f a) l l' -> existsb g l' = existsb f l.
Proof.
  induction 1 as [|a b l l' E H IH]; [reflexivity|].
  cbn [existsb]. now rewrite E, IH.
Qed.

Lemma existsb_filter_nil {A} (f : A -> bool) l :
  existsb f l = true -> filter f l <> [].
Proof.
  induction l as [|a l IH]; [discriminate|]. cbn [existsb filter].
  destruct (f a); [discriminate | exact IH].
Qed.

(** A text with a letter has a word, and no more words than characters
    and one. *)
Lemma getWords_number text ws :
  getWords (VString text) = Normal ws ->
  length ws <= length text + 1
  /\ (has_letter text = true -> 1 <= length ws).
Proof.
  rewrite getWords_string. intros [= <-].
  pose proof (trimmed_token_relation text) as F.
  pose proof (Forall2_length F) as Hlen.
  pose proof (split_length is_space (replace_runs is_lf SP text)) as Hs.
  pose proof (replace_runs_from_length is_lf SP text false) as Hr.
  fold (replace_runs is_lf SP text) in Hr.
  destruct text as [|c t]; [split; [cbn; lia | discriminate]|].
  cbn [length Nat.eqb].
  remember (split is_space (replace_runs is_lf SP (c :: t))) as tokens
    eqn:Et.
  split.
  - pose proof (filter_length_le has_letter (trimNonLettersFromArray tokens)).
    unfold jsstring in *. cbn [length] in *. lia.
  - intros H.
    assert (E : existsb has_letter (trimNonLettersFromArray tokens) = true).
    { rewrite (existsb_Forall2 has_letter has_letter tokens).
      - rewrite Et, has_letter_split.
        unfold replace_runs. now rewrite has_letter_replace_runs.
      - eapply Forall2_impl; [|exact F]. now intros a b [_ Hb]. }
    apply existsb_filter_nil in E.
    destruct (filter has_letter (trimNonLettersFromArray tokens));
      [congruence | cbn; lia].
Qed.

Lemma scan_sentences_lengths n s :
  length s <= n ->
  Forall (fun m => length m <= n + 1) (scan_sentences [] s).
Proof.
  intros Hn.
  apply (scan_sentences_Forall
           (fun cur s => length cur + length s <= n)
           (fun m => length m <= n + 1)) with (n := length s).
  - intros cur c t _ _ H. cbn [length] in H.
    rewrite !length_app, length_rev. cbn [length]. lia.
  - intros cur c t _ H. cbn [length] in *. lia.
  - intros cur c t H. cbn [length] in *. lia.
  - apply Nat.le_refl.
  - cbn [length]. lia.
Qed.

(** A text with a letter has a sentence; it has no more sentences than
    characters and one, and none of them is longer than the text and
    one. *)
Lemma getSentences_number text ss :
  getSentences (VString text) = Normal ss ->
  length ss <= length text + 1
  /\ Forall (fun s => length s <= length text + 1) ss
  /\ (has_letter text = true -> 1 <= length ss).
Proof.
  intros H. split; [|split].
  - revert H. rewrite getSentences_string. intros [= <-].
    destruct (length text =? 0); [cbn; lia|]. cbv zeta.
    pose proof (replace_runs_from_length is_lf SP text false) as Hr.
    fold (replace_runs is_lf SP text) in Hr.
    pose proof (scan_sentences_count (length (replace_runs is_lf SP text))
                  (replace_runs is_lf SP text) [] (Nat.le_refl _)) as Hc.
    pose proof (filter_length_le is_terminator (replace_runs is_lf SP text))
      as Hf.
    unfold count_class in Hc. rewrite length_app.
    destruct (scan_final [] _); cbn [length]; lia.
  - revert H. rewrite getSentences_string. intros [= <-].
    destruct (length text =? 0); [constructor|]. cbv zeta.
    pose proof (replace_runs_from_length is_lf SP text false) as Hr.
    fold (replace_runs is_lf SP text) in Hr.
    apply Forall_app. split.
    + eapply Forall_impl;
        [|apply (scan_sentences_lengths
                   (length (replace_runs is_lf SP text)) _ (Nat.le_refl _))].
      cbn beta. intros m Hm. lia.
    + destruct (scan_final [] (replace_runs is_lf SP text)) as [f|] eqn:E;
        [|constructor].
      constructor; [|constructor].
      destruct (scan_final_fragment _ [] f eq_refl E) as [_ [pre Hp]].
      cbn [rev app] in Hp. apply (f_equal (@length ascii)) in Hp.
      rewrite length_app in Hp. lia.
  - intros Hl. destruct ss as [|s ss]; [|cbn; lia].
    apply getSentences_none, letterless_Forall in H. congruence.
Qed.

(** The metrics of a text with a letter, whatever [parseText] is run on. *)
Lemma parsed_from_numbers text r :
  parsed_from text r ->
  has_letter text = true -> (Z.of_nat (length text) < 2 ^ 62)%Z ->
  1 <= numWords r
  /\ 1 <= numSentences r
  /\ (0 <=? averageWordsPerSentence r)%float = true
  /\ (0 <=? averageSyllablesPerWord r)%float = true
  /\ (0 <=? complexWordRatio r)%float = true
  /\ (0 <=? complexWordsPerSentence r)%float = true
  /\ PrimFloat.is_nan (fleschKincaidGradeLevel r) = false
  /\ (0 <=? gunningFogIndex r)%float = true
  /\ (0 <=? smogIndex r)%float = true.
Proof.
  intros (_ & Hss & Hns & Hws & Hnw & _ & _ & _ & _ & _ & Hawps & Haspw
          & Hcwr & Hcwps & _ & Hgrade & Hfog & Hsmog) Hl Hlen.
  destruct (getWords_number _ _ Hws) as [Hw1 Hw2]. specialize (Hw2 Hl).
  destruct (getSentences_number _ _ Hss) as (Hs1 & _ & Hs2).
  specialize (Hs2 Hl). rewrite <- Hnw in Hw1, Hw2. rewrite <- Hns in Hs1, Hs2.
  assert (Hwb : (Z.of_nat (numWords r) < 2 ^ 63)%Z).
  { change (2 ^ 63)%Z with (2 * 2 ^ 62)%Z. lia. }
  assert (Hsb : (Z.of_nat (numSentences r) < 2 ^ 63)%Z).
  { change (2 ^ 63)%Z with (2 * 2 ^ 62)%Z. lia. }
  assert (H1 : (0 <=? averageWordsPerSentence r)%float = true)
    by (rewrite Hawps; apply count_quotient; assumption).
  assert (H2 : (0 <=? averageSyllablesPerWord r)%float = true)
    by (rewrite Haspw; apply count_quotient; assumption).
  assert (H3 : (0 <=? complexWordRatio r)%float = true)
    by (rewrite Hcwr; apply count_quotient; assumption).
  assert (H4 : (0 <=? complexWordsPerSentence r)%float = true)
    by (rewrite Hcwps; apply count_quotient; assumption).
  repeat split; try assumption.
  - rewrite Hgrade. apply sub_not_nan; [finite_constant|].
    apply add_nonneg; (apply mul_nonneg; [finite_constant | assumption]).
  - rewrite Hfog. apply mul_nonneg; [finite_constant|].
    apply add_nonneg; [assumption|].
    apply mul_nonneg; [finite_constant | assumption].
  - rewrite Hsmog. apply add_nonneg; [|reflexivity].
    apply mul_nonneg; [finite_constant|]. apply sqrt_nonneg.
    apply mul_nonneg; [finite_constant | assumption].
Qed.

(** For a text with a letter [parseText] counts a word and a sentence at
    least, the four quotients, the Gunning fog index and the SMOG index
    are numbers that are 0 or more, and the grade level is a number: none
    of them is NaN. *)
Theorem parseText_numbers :
  forall text c0,
    has_letter text = true -> (Z.of_nat (length text) < 2 ^ 53)%Z ->
    exists r c,
      parseText (VString text) c0 = (Normal r, c)
      /\ 1 <= numWords r
      /\ 1 <= numSentences r
      /\ (0 <=? averageWordsPerSentence r)%float = true
      /\ (0 <=? averageSyllablesPerWord r)%float = true
      /\ (0 <=? complexWordRatio r)%float = true
      /\ (0 <=? complexWordsPerSentence r)%float = true
      /\ PrimFloat.is_nan (fleschKincaidGradeLevel r) = false
      /\ (0 <=? gunningFogIndex r)%float = true
      /\ (0 <=? smogIndex r)%float = true.
Proof.
  intros text c0 Hl Hlen.
  destruct (parseText_string text c0) as (r & c & Hr & Hp).
  exists r, c. split; [exact Hr|].
  apply (parsed_from_numbers text r Hp Hl).
  apply Z.lt_trans with (2 ^ 53)%Z; [exact Hlen | reflexivity].
Qed.

Lemma parseText_numbers_hello :
  has_letter (lit "Hello, world!") = true
  /\ (Z.of_nat (length (lit "Hello, world!")) < 2 ^ 53)%Z
  /\ exists r c,
       parseText (VString (lit "Hello, world!")) [] = (Normal r, c)
       /\ 1 <= numWords r
       /\ 1 <= numSentences r
       /\ (0 <=? averageWordsPerSentence r)%float = true
       /\ (0 <=? averageSyllablesPerWord r)%float = true
       /\ (0 <=? complexWordRatio r)%float = true
       /\ (0 <=? complexWordsPerSentence r)%float = true
       /\ PrimFloat.is_nan (fleschKincaidGradeLevel r) = false
       /\ (0 <=? gunningFogIndex r)%float = true
       /\ (0 <=? smogIndex r)%float = true.
Proof.
  assert (H1 : has_letter (lit "Hello, world!") = true) by reflexivity.
  assert (H2 : (Z.of_nat (length (lit "Hello, world!")) < 2 ^ 53)%Z)
    by (vm_compute; reflexivity).
  exact (conj H1 (conj H2 (parseText_numbers _ [] H1 H2))).
Defined.

(** Where every sentence of the passage has a letter, no grade level in
    [parsedSentences] is NaN and [parsedSentences] is in non-increasing
    order of the grade level. *)
Theorem deepParseText_sorted_sentences :
  forall text c0 d c,
    deepParseText (VString text) c0 = (Normal d, c) ->
    (Z.of_nat (length text) < 2 ^ 53)%Z ->
    Forall (fun s => has_letter s = true) (sentences (result d)) ->
    are_numbers fleschKincaidGradeLevel (parsedSentences d) = true
    /\ non_increasing (grade_levels (parsedSentences d)) = true.
Proof.
  intros text c0 d c Hd Hlen Hl.
  destruct (deepParseText_run text c0)
    as (d' & rs & logs & E & _ & Hp & F & Hs & _).
  rewrite E in Hd. injection Hd as <- <-.
  destruct Hp as (_ & Hss & _).
  destruct (getSentences_number _ _ Hss) as (_ & Hsl & _).
  assert (Hrs : are_numbers fleschKincaidGradeLevel rs = true).
  { unfold are_numbers. clear Hs E Hss.
    induction F as [|s r ss rs' [_ Hr] F IH]; [reflexivity|].
    inversion Hl; subst. inversion Hsl; subst.
    cbn [forallb]. rewrite IH by assumption.
    destruct (parsed_from_numbers s r Hr) as (_ & _ & _ & _ & _ & _ & -> & _);
      [assumption | | reflexivity].
    assert (2 ^ 53 + 1 < 2 ^ 62)%Z by reflexivity. lia. }
  rewrite Hs. split.
  - exact (forallb_Permutation _ _ _
             (Permutation_sym (sort_Permutation _ rs)) Hrs).
  - now apply sort_non_increasing.
Qed.

Lemma deepParseText_sorted_sentences_passage :
  exists d c,
    deepParseText (VString (lit "a. b c d.")) [] = (Normal d, c)
    /\ (Z.of_nat (length (lit "a. b c d.")) < 2 ^ 53)%Z
    /\ Forall (fun s => has_letter s = true) (sentences (result d))
    /\ map source (parsedSentences d)
       = [VString (lit " b c d."); VString (lit "a.")]
    /\ are_numbers fleschKincaidGradeLevel (parsedSentences d) = true
    /\ non_increasing (grade_levels (parsedSentences d)) = true.
Proof.
  eexists. eexists.
  match goal with
  | |- ?E /\ _ => assert (Hd : E) by (vm_compute; reflexivity)
  end.
  split; [exact Hd|].
  assert (Hn : (Z.of_nat (length (lit "a. b c d.")) < 2 ^ 53)%Z)
    by (vm_compute; reflexivity).
  split; [exact Hn|].
  match goal with
  | |- ?E /\ _ => assert (Hl : E) by (cbn; repeat constructor)
  end.
  split; [exact Hl|]. split; [vm_compute; reflexivity|].
  exact (deepParseText_sorted_sentences _ _ _ _ Hd Hn Hl).
Defined.

(** ** Instances *)

Lemma getWords_untrimmed_one_two :
  Forall (fun w => array_index w = None)
    (split is_space (replace_runs is_lf SP (lit "(one) two.")))
  /\ getWords (VString (lit "(one) two."))
     = Normal [lit "(one)"; lit "two."].
Proof.
  assert (H : Forall (fun w => array_index w = None)
                (split is_space (replace_runs is_lf SP (lit "(one) two."))))
    by (repeat constructor).
  exact (conj H (getWords_untrimmed (lit "(one) two.") H)).
Defined.

Lemma trimNonLetters_idempotent_one_line_feed :
  existsb is_lf
    (replace_first is_lf SP ["("%char; "a"%char; "010"%char; "b"%char])
  = false
  /\ trimNonLetters
       (trimNonLetters ["("%char; "a"%char; "010"%char; "b"%char])
     = trimNonLetters ["("%char; "a"%char; "010"%char; "b"%char].
Proof.
  assert (H : existsb is_lf
                (replace_first is_lf SP
                   ["("%char; "a"%char; "010"%char; "b"%char])
              = false) by reflexivity.
  exact (conj H (trimNonLetters_idempotent_no_lf _ H)).
Defined.
